(** * Peer discovery over a Kademlia DHT (pkg/discovery/dht.go)

    A shallow embedding of the discovery orchestrator: the [DHT] session
    record, its methods [Rendezvous], [startDHT], [Run], [bootstrapPeers]
    and [announceAndConnect], and the refresh loop that [Run] spawns.

    The libraries the file drives (libp2p host, kad-dht, go-libp2p-discovery,
    gotp, peer.AddrInfoFromP2pAddr) are not part of the package: they are
    taken as interfaces over an abstract world state [W], and every call
    into them is recorded in a trace of events.  Goroutines are modelled by
    explicit interleavings.  A panic in the goroutine that runs the cycles
    ends the process at once; a panic in one of the goroutines of the
    bootstrap pass runs its deferred [wg.Done()] and leaves the others
    running until the runtime has taken the process down. *)

From Stdlib Require Import ZArith String List Lia Bool Arith.
From stdpp Require Import base list.
Import ListNotations.

Local Open Scope list_scope.

(** ** Data model *)

(** [peer.ID] is a Go string type. *)
Definition PeerID := string.

(** A multiaddr is a sequence of (protocol, value) components, e.g.
    [/ip4/1.2.3.4/tcp/4001/p2p/QmA]. *)
Definition Multiaddr := list (string * string).

(** [type AddrList []multiaddr.Multiaddr] *)
Definition AddrList := list Multiaddr.

(** [peer.AddrInfo] *)
Record AddrInfo := mkAddrInfo { ID : PeerID; Addrs : list Multiaddr }.

(** [network.Connectedness] *)
Inductive connectedness := NotConnected | Connected | CanConnect | CannotConnect.

Definition connectedness_eqb (a b : connectedness) : bool :=
  match a, b with
  | NotConnected, NotConnected | Connected, Connected
  | CanConnect, CanConnect | CannotConnect, CannotConnect => true
  | _, _ => false
  end.

(** Go [error] values, identified by their message. *)
Definition error := string.

(** A [*dht.IpfsDHT] instance, identified by the order of its creation;
    the nil pointer is [None] at type [option IpfsDHT]. *)
Definition IpfsDHT := nat.

(** [dht.Option], opaque. *)
Definition dhtOption := nat.

(** A [log.StandardLogger] value, identified by a number; the nil interface
    is [None] at type [option Logger]. *)
Definition Logger := nat.

(** [type DHT struct] *)
Record DHT := mkDHT {
  OTPKey : string;
  OTPInterval : Z;
  KeyLength : Z;
  RendezvousString : string;
  BootstrapPeers : AddrList;
  latestRendezvous : string;
  console : option Logger;
  RefreshDiscoveryTime : Z;
  dht : option IpfsDHT;
  dhtOptions : list dhtOption
}.

(** Field assignments [d.f = v]. *)
Definition set_KeyLength (v : Z) (d : DHT) : DHT :=
  mkDHT (OTPKey d) (OTPInterval d) v (RendezvousString d) (BootstrapPeers d)
        (latestRendezvous d) (console d) (RefreshDiscoveryTime d) (dht d) (dhtOptions d).

Definition set_BootstrapPeers (v : AddrList) (d : DHT) : DHT :=
  mkDHT (OTPKey d) (OTPInterval d) (KeyLength d) (RendezvousString d) v
        (latestRendezvous d) (console d) (RefreshDiscoveryTime d) (dht d) (dhtOptions d).

Definition set_latestRendezvous (v : string) (d : DHT) : DHT :=
  mkDHT (OTPKey d) (OTPInterval d) (KeyLength d) (RendezvousString d) (BootstrapPeers d)
        v (console d) (RefreshDiscoveryTime d) (dht d) (dhtOptions d).

Definition set_console (v : option Logger) (d : DHT) : DHT :=
  mkDHT (OTPKey d) (OTPInterval d) (KeyLength d) (RendezvousString d) (BootstrapPeers d)
        (latestRendezvous d) v (RefreshDiscoveryTime d) (dht d) (dhtOptions d).

Definition set_dht (v : option IpfsDHT) (d : DHT) : DHT :=
  mkDHT (OTPKey d) (OTPInterval d) (KeyLength d) (RendezvousString d) (BootstrapPeers d)
        (latestRendezvous d) (console d) (RefreshDiscoveryTime d) v (dhtOptions d).

(** [func NewDHT(d ...dht.Option) *DHT]: every other field has its zero value. *)
Definition NewDHT (opts : list dhtOption) : DHT :=
  mkDHT EmptyString 0 0 EmptyString [] EmptyString None 0 None opts.

(** ** Observable events *)

(** The messages the file logs. *)
Inductive logmsg :=
| MsgBootstrappingDHT
| MsgError (err : error)
| MsgBootstrapConnected (p : AddrInfo)
| MsgAnnouncing
| MsgAnnounced
| MsgSearching
| MsgFoundPeer (p : AddrInfo)
| MsgFailedConnecting (p : AddrInfo)
| MsgConnectedTo (p : AddrInfo)
| MsgKnownPeer (p : AddrInfo).

Inductive loglevel := LvlInfo | LvlDebug.

(** One event per call that leaves the package. *)
Inductive event :=
| EvLog (c : Logger) (lvl : loglevel) (m : logmsg)
| EvDhtNew (opts : list dhtOption) (r : error + IpfsDHT)
| EvBootstrap (k : IpfsDHT) (r : option error)
| EvAdvertise (k : IpfsDHT) (rv : string)
| EvFindPeers (k : IpfsDHT) (rv : string) (r : option error)
| EvConnectedness (id : PeerID) (r : connectedness)
| EvConnect (p : AddrInfo) (r : option error)
| EvTOTPNow (key : string) (digits interval : Z) (rv : string)
| EvNewTimer (dur : Z)
| EvTimerStop.

(** ** The collaborators, as interfaces over a world state [W] *)

(** [host.Host]: identity, connectedness of a peer, dialling a peer. *)
Class Host (W : Type) := {
  host_ID : PeerID;
  Connectedness : W -> PeerID -> connectedness;
  Connect : W -> AddrInfo -> option error * W
}.

(** The routing substrate and the helper libraries.
    - [dht_New]: [dht.New(ctx, h, opts...)];
    - [dht_Bootstrap]: [Bootstrap(ctx)] on the DHT instance;
    - [Advertise]: [discovery.Advertise], which returns nothing;
    - [FindPeers]: [routingDiscovery.FindPeers]; on success the peers the
      channel yields until it is closed, in order;
    - [DefaultBootstrapPeers]: [dht.DefaultBootstrapPeers];
    - [AddrInfoFromP2pAddr]: [peer.AddrInfoFromP2pAddr]; [None] is its
      [(nil, err)] result;
    - [totp_Now]: [gotp.NewTOTP(key, digits, interval, nil).Now()], which
      reads the clock of the world;
    - [totp_panics]: whether that call panics instead of returning, as
      gotp does on a secret that is not base32, on an interval of zero
      (division by zero) and on a negative number of digits; a call that
      panics gives no value and leaves no event;
    - [exit_delay]: the Go runtime; how many more calls the other
      goroutines get to make between the panic of a goroutine and the exit
      of the process. *)
Class Substrate (W : Type) := {
  dht_New : W -> list dhtOption -> (error + IpfsDHT) * W;
  dht_Bootstrap : W -> IpfsDHT -> option error * W;
  Advertise : W -> IpfsDHT -> string -> W;
  FindPeers : W -> IpfsDHT -> string -> (error + list AddrInfo) * W;
  DefaultBootstrapPeers : AddrList;
  AddrInfoFromP2pAddr : Multiaddr -> option AddrInfo;
  totp_Now : W -> string -> Z -> Z -> string;
  totp_panics : W -> string -> Z -> Z -> bool;
  exit_delay : W -> nat
}.

(** ** The effect monad: world passing, a trace, and panics *)

(** What a computation comes to:
    - [Ret a w tr]: it returned [a], leaving world [w], after the calls [tr];
    - [Panic tr]: the process has exited on a panic, after the calls [tr];
    - [Dying a w tr n]: it returned [a], leaving world [w], after the calls
      [tr], in a process that is going down: a goroutine has panicked and
      the runtime will exit the process after at most [n] more calls. *)
Inductive outcome (W A : Type) :=
| Ret (a : A) (w : W) (tr : list event)
| Panic (tr : list event)
| Dying (a : A) (w : W) (tr : list event) (n : nat).
Arguments Ret {W A} a w tr.
Arguments Panic {W A} tr.
Arguments Dying {W A} a w tr n.

Definition M (W A : Type) : Type := W -> outcome W A.

Definition ret {W A} (a : A) : M W A := fun w => Ret a w [].

(** What is left of outcome [o] when the process has [n] more calls to
    live, after the calls [t1]: all of it when its calls are at most [n],
    its first [n] calls and the exit otherwise. *)
Definition cut {W B} (t1 : list event) (n : nat) (o : outcome W B) : outcome W B :=
  match o with
  | Ret b w2 t2 =>
      if length t2 <=? n then Dying b w2 (t1 ++ t2) (n - length t2)
      else Panic (t1 ++ firstn n t2)
  | Panic t2 => Panic (t1 ++ firstn n t2)
  | Dying b w2 t2 m =>
      if length t2 <=? n then Dying b w2 (t1 ++ t2) (Nat.min (n - length t2) m)
      else Panic (t1 ++ firstn n t2)
  end.

Definition bind {W A B} (m : M W A) (f : A -> M W B) : M W B :=
  fun w =>
    match m w with
    | Ret a w1 t1 =>
        match f a w1 with
        | Ret b w2 t2 => Ret b w2 (t1 ++ t2)
        | Panic t2 => Panic (t1 ++ t2)
        | Dying b w2 t2 n => Dying b w2 (t1 ++ t2) n
        end
    | Panic t1 => Panic t1
    | Dying a w1 t1 n => cut t1 n (f a w1)
    end.

Notation "x <- m ;; k" := (bind m (fun x => k))
  (at level 100, m at next level, right associativity).
Notation "m ;;; k" := (bind m (fun _ => k))
  (at level 100, right associativity).

(** A run-time panic (nil dereference) of the goroutine that runs the
    cycles. *)
Definition panic {W A} : M W A := fun _ => Panic [].

Definition emit {W} (e : event) : M W unit := fun w => Ret tt w [e].

(** Dereferencing a pointer or calling a method on an interface value. *)
Definition deref {W A} (p : option A) : M W A :=
  match p with
  | Some a => ret a
  | None => panic
  end.

(** The trace of an outcome, whether it returned or panicked. *)
Definition trace_of {W A} (o : outcome W A) : list event :=
  match o with
  | Ret _ _ t => t
  | Panic t => t
  | Dying _ _ t _ => t
  end.

(** Something has panicked: the process is down or going down. *)
Definition panicked {W A} (o : outcome W A) : bool :=
  match o with
  | Ret _ _ _ => false
  | Panic _ => true
  | Dying _ _ _ _ => true
  end.

(** The computation came back to its caller with [a], world [w] and trace
    [t], in a healthy process or in one that is going down. *)
Definition returned {W A} (o : outcome W A) (a : A) (w : W) (t : list event) : Prop :=
  o = Ret a w t \/ exists n, o = Dying a w t n.

(** No goroutine has panicked while the computation ran. *)
Definition sequential {W A} (o : outcome W A) : Prop :=
  match o with
  | Dying _ _ _ _ => False
  | _ => True
  end.

Module Discovery.
Section WithWorld.

Context {W : Type} `{HostW : Host W} `{SubW : Substrate W}.

(** *** Calls into the collaborators *)

Definition Debug (c : option Logger) (m : logmsg) : M W unit :=
  l <- deref c ;; emit (EvLog l LvlDebug m).

Definition Info (c : option Logger) (m : logmsg) : M W unit :=
  l <- deref c ;; emit (EvLog l LvlInfo m).

Definition call_Connectedness (id : PeerID) : M W connectedness :=
  fun w => let r := Connectedness w id in Ret r w [EvConnectedness id r].

Definition call_Connect (p : AddrInfo) : M W (option error) :=
  fun w => let '(r, w1) := Connect w p in Ret r w1 [EvConnect p r].

Definition call_dht_New (opts : list dhtOption) : M W (error + IpfsDHT) :=
  fun w => let '(r, w1) := dht_New w opts in Ret r w1 [EvDhtNew opts r].

Definition call_Bootstrap (k : IpfsDHT) : M W (option error) :=
  fun w => let '(r, w1) := dht_Bootstrap w k in Ret r w1 [EvBootstrap k r].

Definition call_Advertise (k : IpfsDHT) (rv : string) : M W unit :=
  fun w => Ret tt (Advertise w k rv) [EvAdvertise k rv].

Definition result_error {A} (r : error + A) : option error :=
  match r with
  | inl e => Some e
  | inr _ => None
  end.

Definition call_FindPeers (k : IpfsDHT) (rv : string) : M W (error + list AddrInfo) :=
  fun w => let '(r, w1) := FindPeers w k rv in Ret r w1 [EvFindPeers k rv (result_error r)].

Definition call_totp_Now (key : string) (digits interval : Z) : M W string :=
  fun w =>
    if totp_panics w key digits interval then Panic []
    else let rv := totp_Now w key digits interval in
         Ret rv w [EvTOTPNow key digits interval rv].

(** A goroutine other than the one running the cycles has panicked: from
    here on the process is going down. *)
Definition doom : M W unit := fun w => Dying tt w [] (exit_delay w).

(** *** [func (d *DHT) Rendezvous() string] *)
Definition Rendezvous (d : DHT) : M W (string * DHT) :=
  if negb (String.eqb (OTPKey d) EmptyString) then
    rv <- call_totp_Now (OTPKey d) (KeyLength d) (OTPInterval d) ;;
    ret (rv, set_latestRendezvous rv d)
  else ret (RendezvousString d, d).

(** *** [func (d *DHT) startDHT(ctx, h)], returning the handle and an error *)
Definition startDHT (d : DHT) : M W (option IpfsDHT * option error * DHT) :=
  match dht d with
  | None =>
      r <- call_dht_New (dhtOptions d) ;;
      match r with
      | inl err => ret (dht d, Some err, d)
      | inr kad => let d1 := set_dht (Some kad) d in ret (dht d1, None, d1)
      end
  | Some _ => ret (dht d, None, d)
  end.

(** [func (d *DHT) Option(ctx)]: the routing constructor handed to libp2p
    is [startDHT] on the same session. *)
Definition Option_routing (d : DHT) : M W (option IpfsDHT * option error * DHT) :=
  startDHT d.

(** *** [func (d *DHT) announceAndConnect(ctx, kademliaDHT, host, rv) error] *)

(** The body of [for p := range peerChan]. *)
Definition announce_peer (d : DHT) (p : AddrInfo) : M W unit :=
  if String.eqb (ID p) host_ID || Nat.eqb (length (Addrs p)) 0 then ret tt
  else
    s <- call_Connectedness (ID p) ;;
    if negb (connectedness_eqb s Connected) then
      Debug (console d) (MsgFoundPeer p) ;;;
      r <- call_Connect p ;;
      match r with
      | Some _ => Debug (console d) (MsgFailedConnecting p)
      | None => Debug (console d) (MsgConnectedTo p)
      end
    else Debug (console d) (MsgKnownPeer p).

(** The loop over the channel, which yields finitely many peers and is
    then closed. *)
Fixpoint range_peerChan (d : DHT) (peerChan : list AddrInfo) : M W unit :=
  match peerChan with
  | [] => ret tt
  | p :: rest => announce_peer d p ;;; range_peerChan d rest
  end.

Definition announceAndConnect (d : DHT) (kademliaDHT : IpfsDHT) (rv : string)
  : M W (option error) :=
  Debug (console d) MsgAnnouncing ;;;
  call_Advertise kademliaDHT rv ;;;
  Debug (console d) MsgAnnounced ;;;
  Debug (console d) MsgSearching ;;;
  r <- call_FindPeers kademliaDHT rv ;;
  match r with
  | inl err => ret (Some err)
  | inr peerChan => range_peerChan d peerChan ;;; ret None
  end.

(** *** [func (d *DHT) bootstrapPeers(c, ctx, host)] *)

(** One goroutine of the loop, at one of its program points: before
    [host.Network().Connectedness(peerinfo.ID)], before
    [host.Connect(ctx, *peerinfo)], after it returned, and after it
    panicked; in both of the last its deferred [wg.Done()] has run.
    [peerinfo] is the pointer [peer.AddrInfoFromP2pAddr] returned, nil when
    it failed. *)
Inductive goroutine :=
| GCheck (peerinfo : option AddrInfo)
| GDial (peerinfo : AddrInfo)
| GDone
| GPanicked.

(** [c.Debug(...)] at the end of a goroutine: on a nil logger the
    goroutine panics. *)
Definition go_Debug (c : option Logger) (m : logmsg) : M W goroutine :=
  match c with
  | Some l => emit (EvLog l LvlDebug m) ;;; ret GDone
  | None => ret GPanicked
  end.

(** One atomic step of a goroutine.  Reading [peerinfo.ID] through a nil
    pointer panics the goroutine. *)
Definition goroutine_step (c : option Logger) (g : goroutine) : M W goroutine :=
  match g with
  | GCheck None => ret GPanicked
  | GCheck (Some p) =>
      s <- call_Connectedness (ID p) ;;
      if negb (connectedness_eqb s Connected) then ret (GDial p) else ret GDone
  | GDial p =>
      r <- call_Connect p ;;
      match r with
      | Some err => go_Debug c (MsgError err)
      | None => go_Debug c (MsgBootstrapConnected p)
      end
  | GDone => ret GDone
  | GPanicked => ret GPanicked
  end.

(** The step took a goroutine that was running into a panic. *)
Definition just_panicked (g g1 : goroutine) : bool :=
  match g, g1 with
  | GPanicked, _ => false
  | _, GPanicked => true
  | _, _ => false
  end.

(** The scheduler lets goroutine [i] take a step; nothing happens when
    there is no such goroutine.  When the goroutine panics, the others go
    on while the runtime takes the process down. *)
Definition pool_step (c : option Logger) (i : nat) (pool : list goroutine)
  : M W (list goroutine) :=
  match pool !! i with
  | Some g =>
      g1 <- goroutine_step c g ;;
      (if just_panicked g g1 then doom else ret tt) ;;;
      ret (<[i := g1]> pool)
  | None => ret pool
  end.

Fixpoint run_schedule (c : option Logger) (sched : list nat) (pool : list goroutine)
  : M W (list goroutine) :=
  match sched with
  | [] => ret pool
  | i :: rest => pool1 <- pool_step c i pool ;; run_schedule c rest pool1
  end.

(** [wg.Wait()] returns once every goroutine has called [wg.Done()], by
    returning or by panicking: whatever the scheduler left unfinished runs
    to its end, in index order. *)
Definition drain_order (n : nat) : list nat :=
  flat_map (fun i => [i; i]) (seq 0 n).

Definition wg_Wait (c : option Logger) (pool : list goroutine) : M W (list goroutine) :=
  run_schedule c (drain_order (length pool)) pool.

(** The loop starts one goroutine per entry of [d.BootstrapPeers]; [sched]
    is the interleaving the Go scheduler picks for them. *)
Definition spawn_all (peers : AddrList) : list goroutine :=
  map (fun peerAddr => GCheck (AddrInfoFromP2pAddr peerAddr)) peers.

Definition bootstrapPeers (sched : list nat) (c : option Logger) (d : DHT) : M W unit :=
  pool <- run_schedule c sched (spawn_all (BootstrapPeers d)) ;;
  wg_Wait c pool ;;;
  ret tt.

(** *** [func (d *DHT) Run(c, ctx, host) error] *)

(** What [Run] hands back: an error, or nil after spawning the refresh
    goroutine over the DHT handle. *)
Inductive run_result :=
| RunError (err : error)
| RunSpawned (kademliaDHT : IpfsDHT).

Definition run_error (r : run_result) : option error :=
  match r with
  | RunError e => Some e
  | RunSpawned _ => None
  end.

(** The assignments at the top of [Run]. *)
Definition Run_defaults (c : option Logger) (d : DHT) : DHT :=
  let d1 := if Z.eqb (KeyLength d) 0 then set_KeyLength 12 d else d in
  let d2 := set_console c d1 in
  if Nat.eqb (length (BootstrapPeers d2)) 0
  then set_BootstrapPeers DefaultBootstrapPeers d2
  else d2.

Definition Run (c : option Logger) (d : DHT) : M W (run_result * DHT) :=
  r <- startDHT (Run_defaults c d) ;;
  let '(kademliaDHT, err, d1) := r in
  match err with
  | Some e => ret (RunError e, d1)
  | None =>
      Info c MsgBootstrappingDHT ;;;
      k <- deref kademliaDHT ;;
      err1 <- call_Bootstrap k ;;
      match err1 with
      | Some e => ret (RunError e, d1)
      | None => ret (RunSpawned k, d1)
      end
  end.

(** The closure [connect := func() { ... }]: one discovery cycle. *)
Definition connect (sched : list nat) (c : option Logger) (kademliaDHT : IpfsDHT)
  (d : DHT) : M W DHT :=
  bootstrapPeers sched c d ;;;
  (if negb (String.eqb (latestRendezvous d) EmptyString)
   then announceAndConnect d kademliaDHT (latestRendezvous d) ;;; ret tt
   else ret tt) ;;;
  r <- Rendezvous d ;;
  announceAndConnect (snd r) kademliaDHT (fst r) ;;;
  ret (snd r).

(** The closure after its first statement, [d.bootstrapPeers(c, ctx, host)]:
    the announce steps of a cycle. *)
Definition announce_steps (kademliaDHT : IpfsDHT) (d : DHT) : M W DHT :=
  (if negb (String.eqb (latestRendezvous d) EmptyString)
   then announceAndConnect d kademliaDHT (latestRendezvous d) ;;; ret tt
   else ret tt) ;;;
  r <- Rendezvous d ;;
  announceAndConnect (snd r) kademliaDHT (fst r) ;;;
  ret (snd r).

(** The branch a [select] takes. *)
Inductive select_case := CtxDone | TimerC.

(** Where the goroutine is when the observation ends. *)
Inductive loop_status := Stopped | Waiting.

(** The [for { ... }] loop of the goroutine.  [sels] lists the branches its
    successive [select]s take; when the list is used up the goroutine is
    blocked in [select].  [sch n] is the interleaving of the bootstrap
    goroutines in cycle [n]. *)
Fixpoint refresh_loop (sch : nat -> list nat) (n : nat) (sels : list select_case)
  (c : option Logger) (k : IpfsDHT) (d : DHT) : M W (loop_status * DHT) :=
  emit (EvNewTimer (RefreshDiscoveryTime d)) ;;;
  match sels with
  | [] => ret (Waiting, d)
  | CtxDone :: _ => emit EvTimerStop ;;; ret (Stopped, d)
  | TimerC :: rest => d1 <- connect (sch n) c k d ;; refresh_loop sch (S n) rest c k d1
  end.

(** The body of [go func() { ... }()]. *)
Definition refresh_goroutine (sch : nat -> list nat) (sels : list select_case)
  (c : option Logger) (k : IpfsDHT) (d : DHT) : M W (loop_status * DHT) :=
  d1 <- connect (sch 0) c k d ;;
  refresh_loop sch 1 sels c k d1.

(** [Run] followed by the goroutine it spawns. *)
Definition Run_session (sch : nat -> list nat) (sels : list select_case)
  (c : option Logger) (d : DHT) : M W (option error * option loop_status * DHT) :=
  r <- Run c d ;;
  match fst r with
  | RunError e => ret (Some e, None, snd r)
  | RunSpawned k =>
      r1 <- refresh_goroutine sch sels c k (snd r) ;;
      ret (None, Some (fst r1), snd r1)
  end.

(** *** Requests for the routing handle *)

(** Sequential requests, one [startDHT] after the other (from [Option] or
    from [Run]); the handles they return, oldest first. *)
Fixpoint startDHT_seq (n : nat) (d : DHT) : M W (list (option IpfsDHT * option error) * DHT) :=
  match n with
  | O => ret ([], d)
  | S m =>
      r <- startDHT d ;;
      rs <- startDHT_seq m (snd r) ;;
      ret (fst r :: fst rs, snd rs)
  end.

(** Overlapping requests: [startDHT] cut at its accesses to [d.dht]. *)
Inductive start_pc :=
| PcCheck
| PcNew
| PcStore (kad : IpfsDHT)
| PcReturn (err : option error)
| PcDone (handle : option IpfsDHT) (err : option error).

Definition startDHT_step (pc : start_pc) (d : DHT) : M W (start_pc * DHT) :=
  match pc with
  | PcCheck =>
      ret (match dht d with None => PcNew | Some _ => PcReturn None end, d)
  | PcNew =>
      r <- call_dht_New (dhtOptions d) ;;
      ret (match r with inl err => PcReturn (Some err) | inr kad => PcStore kad end, d)
  | PcStore kad => ret (PcReturn None, set_dht (Some kad) d)
  | PcReturn err => ret (PcDone (dht d) err, d)
  | PcDone _ _ => ret (pc, d)
  end.

Fixpoint startDHT_interleave (sched : list nat) (pcs : list start_pc) (d : DHT)
  : M W (list start_pc * DHT) :=
  match sched with
  | [] => ret (pcs, d)
  | i :: rest =>
      match pcs !! i with
      | Some pc =>
          r <- startDHT_step pc d ;;
          startDHT_interleave rest (<[i := fst r]> pcs) (snd r)
      | None => startDHT_interleave rest pcs d
      end
  end.

End WithWorld.
End Discovery.

(** ** A concrete world, to run the model on *)

Module TestWorld.
Import Discovery.

Local Open Scope string_scope.

(** A small network: who is connected, whose dial fails, how many DHT
    instances exist, which substrate calls succeed, what a lookup yields,
    the time, and how long the runtime takes to exit after a panic. *)
Record world := mkWorld {
  conns : list PeerID;
  dead : list PeerID;
  created : nat;
  new_ok : bool;
  boot_ok : bool;
  find_ok : bool;
  providers : list AddrInfo;
  clock : Z;
  delay : nat
}.

Definition mem (id : PeerID) (l : list PeerID) : bool := existsb (String.eqb id) l.

Definition with_conns (l : list PeerID) (w : world) : world :=
  mkWorld l (dead w) (created w) (new_ok w) (boot_ok w) (find_ok w) (providers w) (clock w)
          (delay w).

Definition with_created (n : nat) (w : world) : world :=
  mkWorld (conns w) (dead w) n (new_ok w) (boot_ok w) (find_ok w) (providers w) (clock w)
          (delay w).

Definition with_delay (n : nat) (w : world) : world :=
  mkWorld (conns w) (dead w) (created w) (new_ok w) (boot_ok w) (find_ok w) (providers w)
          (clock w) n.

#[export] Instance test_host : Host world := {|
  host_ID := "self";
  Connectedness := fun w id => if mem id (conns w) then Connected else NotConnected;
  Connect := fun w p =>
    if mem (ID p) (dead w) then (Some "dial failed", w)
    else (None, with_conns (ID p :: conns w) w)
|}.

(** [peer.SplitAddr]: the address without its last component, and the
    peer identity when that component is a p2p one. *)
Definition SplitAddr (m : Multiaddr) : Multiaddr * PeerID :=
  match rev m with
  | (proto, v) :: before =>
      if String.eqb proto "p2p" then (rev before, v) else (m, "")
  | [] => (m, "")
  end.

Definition parse_p2p_addr (m : Multiaddr) : option AddrInfo :=
  let '(transport, id) := SplitAddr m in
  if String.eqb id "" then None
  else Some (mkAddrInfo id (match transport with [] => [] | _ => [transport] end)).

Definition digit_char (n : Z) : Ascii.ascii :=
  Ascii.ascii_of_nat (48 + Z.to_nat (n mod 10)).

(** The decimal digits of [code mod 10^digits], padded with zeros to
    [digits] characters. *)
Fixpoint zero_padded (digits : nat) (code : Z) : string :=
  match digits with
  | O => ""
  | S m => zero_padded m (code / 10) ++ String (digit_char code) ""
  end.

(** A secret gotp can decode: base32 characters only, of a length that
    padding completes to a multiple of eight. *)
Definition base32_char (a : Ascii.ascii) : bool :=
  let n := Ascii.nat_of_ascii a in
  (Nat.leb 65 n && Nat.leb n 90) || (Nat.leb 50 n && Nat.leb n 55).

Fixpoint all_base32 (s : string) : bool :=
  match s with
  | EmptyString => true
  | String a rest => base32_char a && all_base32 rest
  end.

Definition valid_secret (key : string) : bool :=
  all_base32 key &&
  match Nat.modulo (String.length key) 8 with
  | 0 | 2 | 4 | 5 | 7 => true
  | _ => false
  end.

(** A stand-in for the HMAC of the time step: any number would do. *)
Definition otp_code (key : string) (step : Z) : Z :=
  (Z.of_nat (String.length key) * 7919 + step * 104729) mod 2147483648.

#[export] Instance test_substrate : Substrate world := {|
  dht_New := fun w _ =>
    if new_ok w then (inr (created w), with_created (S (created w)) w)
    else (inl "dht: no datastore", w);
  dht_Bootstrap := fun w _ =>
    if boot_ok w then (None, w) else (Some "bootstrap failed", w);
  Advertise := fun w _ _ => w;
  FindPeers := fun w _ _ =>
    if find_ok w then (inr (providers w), w) else (inl "routing unavailable", w);
  DefaultBootstrapPeers :=
    [[("dnsaddr", "bootstrap.libp2p.io"); ("p2p", "QmBoot")]];
  AddrInfoFromP2pAddr := parse_p2p_addr;
  totp_Now := fun w key digits interval =>
    zero_padded (Z.to_nat digits) (otp_code key (Z.quot (clock w) interval));
  totp_panics := fun w key digits interval =>
    negb (valid_secret key) || (interval =? 0)%Z || (digits <? 0)%Z;
  exit_delay := delay
|}.

Definition peerA : AddrInfo := mkAddrInfo "QmA" [[("ip4", "10.0.0.1"); ("tcp", "4001")]].
Definition peerB : AddrInfo := mkAddrInfo "QmB" [[("ip4", "10.0.0.2"); ("tcp", "4001")]].
Definition peerSelf : AddrInfo := mkAddrInfo "self" [[("ip4", "10.0.0.9"); ("tcp", "4001")]].
Definition peerNoAddr : AddrInfo := mkAddrInfo "QmC" [].

Definition addrA : Multiaddr := [("ip4", "10.0.0.1"); ("tcp", "4001"); ("p2p", "QmA")].
Definition addrB : Multiaddr := [("ip4", "10.0.0.2"); ("tcp", "4001"); ("p2p", "QmB")].
(** A well-formed multiaddr with no p2p component. *)
Definition addrNoID : Multiaddr := [("ip4", "127.0.0.1"); ("tcp", "4001")].

(** Nobody connected, QmB does not answer, every substrate call works, a
    lookup yields QmA, ourselves, a peer without address, QmB, QmA, and the
    runtime exits four calls after a panic. *)
Definition w0 : world :=
  mkWorld [] ["QmB"] 0 true true true [peerA; peerSelf; peerNoAddr; peerB; peerA] 1000 4.

Definition sess0 : DHT :=
  mkDHT "" 30 0 "edgevpn" [addrA; addrB] "" (Some 0%nat) 60 None [].

Definition sessOTP : DHT :=
  mkDHT "JBSWY3DPEHPK3PXP" 30 0 "" [addrA] "" None 60 None [].

(** The world [w0] with QmA already connected. *)
Definition wA : world := with_conns ["QmA"] w0.

(** The world where [Bootstrap] fails, and the one where the lookup
    cannot start. *)
Definition w_boot_fails : world :=
  mkWorld [] ["QmB"] 0 true false true [peerA; peerB] 1000 4.

Definition w_find_fails : world :=
  mkWorld [] ["QmB"] 0 true true false [peerA; peerB] 1000 4.

(** A session whose second bootstrap address has no p2p component. *)
Definition sessBad : DHT := set_BootstrapPeers [addrA; addrNoID] sess0.

(** A session that already holds DHT instance 7. *)
Definition sess7 : DHT := set_dht (Some 7) sess0.

(** A rotating session in the middle of its life: logger set, a previous
    value at hand. *)
Definition sessRot : DHT :=
  mkDHT "JBSWY3DPEHPK3PXP" 30 12 "" [addrA] "000003503466" (Some 0%nat) 60 None [].

(** A rotating session as [NewDHT] leaves [OTPInterval] when nothing sets
    it: zero. *)
Definition sessNoInterval : DHT :=
  mkDHT "JBSWY3DPEHPK3PXP" 0 12 "" [addrA] "000003503466" (Some 0%nat) 60 None [].

End TestWorld.

(** ** Reading traces *)

Module Trace.

(** The peers whose connectedness was asked, in order. *)
Definition checked_ids (t : list event) : list PeerID :=
  flat_map (fun e => match e with EvConnectedness id _ => [id] | _ => [] end) t.

(** How often [host.Connect] was called on peer [id]. *)
Definition dials (id : PeerID) (t : list event) : nat :=
  length (List.filter (fun e => match e with
                           | EvConnect p _ => String.eqb (ID p) id
                           | _ => false
                           end) t).

(** How often peer [id] was reported in a state other than [Connected]. *)
Definition clearances (id : PeerID) (t : list event) : nat :=
  length (List.filter (fun e => match e with
                           | EvConnectedness q s =>
                               String.eqb q id && negb (connectedness_eqb s Connected)
                           | _ => false
                           end) t).

(** Every dial is paid for by an earlier report, on the same peer, that was
    not [Connected]: in each prefix of the trace a peer has been dialled at
    most as often as it has been reported not connected.  A report of
    [Connected] pays for no dial. *)
Definition guarded (t : list event) : Prop :=
  forall (n : nat) (id : PeerID), dials id (firstn n t) <= clearances id (firstn n t).

(** The rendezvous values advertised, in order: one per announce pass. *)
Definition advertised (t : list event) : list string :=
  flat_map (fun e => match e with EvAdvertise _ rv => [rv] | _ => [] end) t.

Definition is_new_timer (e : event) : bool :=
  match e with EvNewTimer _ => true | _ => false end.

Definition is_created (e : event) : bool :=
  match e with EvDhtNew _ (inr _) => true | _ => false end.

(** Announce passes started, timers armed, DHT instances created. *)
Definition advertise_count (t : list event) : nat := length (advertised t).
Definition timer_count (t : list event) : nat := length (List.filter is_new_timer t).
Definition created_count (t : list event) : nat := length (List.filter is_created t).

End Trace.

(** A peer the announce loop goes on to examine: not ourselves, and with at
    least one address. *)
Definition eligible {W} `{Host W} (p : AddrInfo) : bool :=
  negb (String.eqb (ID p) host_ID || Nat.eqb (length (Addrs p)) 0).

(** ** Predicates on events, goroutine pools and sessions *)

Module Pred.
Import Discovery Trace.

(** [guarded], with some dials paid for in advance: [credit id] goroutines
    have already seen peer [id] not connected and are about to dial it. *)
Definition guarded_with (credit : PeerID -> nat) (t : list event) : Prop :=
  forall n id, dials id (firstn n t) <= credit id + clearances id (firstn n t).

(** Events that are neither a dial nor a connectedness report. *)
Definition neutral (e : event) : bool :=
  match e with
  | EvConnect _ _ | EvConnectedness _ _ => false
  | _ => true
  end.

(** The dials the pool has been cleared for and not made yet. *)
Definition owes (id : PeerID) (g : goroutine) : nat :=
  match g with
  | GDial p => if String.eqb (ID p) id then 1 else 0
  | _ => 0
  end.

Definition pending (pool : list goroutine) (id : PeerID) : nat :=
  list_sum (map (owes id) pool).

(** The steps a goroutine still has to take. *)
Definition steps_left (g : goroutine) : nat :=
  match g with
  | GCheck _ => 2
  | GDial _ => 1
  | GDone | GPanicked => 0
  end.

(** Goroutine [j] of the pool has ended, by returning or by panicking. *)
Definition ended_at (pool : list goroutine) (j : nat) : Prop :=
  exists g, pool !! j = Some g /\ steps_left g = 0.

(** No goroutine of the pool holds a nil [peerinfo]. *)
Definition nil_free (pool : list goroutine) : Prop :=
  Forall (fun g => g <> GCheck None) pool.

(** The events of dialling: connectedness reports, dials and log lines. *)
Definition dial_only (e : event) : Prop :=
  match e with
  | EvConnectedness _ _ | EvConnect _ _ | EvLog _ _ _ => True
  | _ => False
  end.

(** The events of an announce pass under [rv]. *)
Definition announce_ev (rv : string) (e : event) : Prop :=
  match e with
  | EvAdvertise _ rv1 => rv1 = rv
  | EvFindPeers _ _ _ | EvLog _ _ _ | EvConnectedness _ _ | EvConnect _ _ => True
  | _ => False
  end.

(** The events of [Run] before it spawns the goroutine. *)
Definition startup_ev (e : event) : Prop :=
  match e with
  | EvDhtNew _ _ | EvBootstrap _ _ | EvLog _ _ _ => True
  | _ => False
  end.

Definition totp_digits_12 (e : event) : Prop :=
  match e with
  | EvTOTPNow _ digits _ rv => digits = 12%Z /\ String.length rv = 12
  | _ => True
  end.

Definition advertise_12 (e : event) : Prop :=
  match e with
  | EvAdvertise _ rv => String.length rv = 12
  | _ => True
  end.

(** In static mode nothing is asked of the TOTP generator, and every
    announce pass is under the configured string [rs]. *)
Definition static_ev (rs : string) (e : event) : Prop :=
  match e with
  | EvTOTPNow _ _ _ _ => False
  | EvAdvertise _ rv => rv = rs
  | _ => True
  end.

Definition static_session (d : DHT) : Prop :=
  OTPKey d = EmptyString /\ latestRendezvous d = EmptyString.

(** How often the connectedness of peer [id] was asked. *)
Definition checks (id : PeerID) (t : list event) : nat :=
  length (List.filter (fun e => match e with
                                | EvConnectedness q _ => String.eqb q id
                                | _ => false
                                end) t).

(** A goroutine that has not asked for the connectedness of its peer yet:
    of peer [id], and of any peer. *)
Definition awaits (id : PeerID) (g : goroutine) : nat :=
  match g with
  | GCheck (Some p) => if String.eqb (ID p) id then 1 else 0
  | _ => 0
  end.

Definition unstarted (g : goroutine) : nat :=
  match g with
  | GCheck (Some _) => 1
  | _ => 0
  end.

(** Calls to [dht.New], whatever they gave. *)
Definition new_count (t : list event) : nat :=
  length (List.filter (fun e => match e with EvDhtNew _ _ => true | _ => false end) t).

(** The values the TOTP generator gave, in order. *)
Definition totp_values (t : list event) : list string :=
  flat_map (fun e => match e with EvTOTPNow _ _ _ rv => [rv] | _ => [] end) t.

(** What a rotating session advertises when the generator gives the values
    [vs] one cycle after the other: each value in the cycle that computes
    it, and once more at the start of the next cycle. *)
Fixpoint relay (prev : string) (vs : list string) : list string :=
  match vs with
  | [] => []
  | v :: rest => prev :: v :: relay v rest
  end.

Definition handover (vs : list string) : list string :=
  match vs with
  | [] => []
  | v :: rest => v :: relay v rest
  end.

(** Every call to the TOTP generator has these arguments. *)
Definition totp_args_ev (key : string) (digits interval : Z) (e : event) : Prop :=
  match e with
  | EvTOTPNow key1 digits1 interval1 _ =>
      key1 = key /\ digits1 = digits /\ interval1 = interval
  | _ => True
  end.

(** A request for the routing handle that came back with an error. *)
Definition failed (r : option IpfsDHT * option error) : bool :=
  match snd r with
  | Some _ => true
  | None => false
  end.

(** The [select]s that take the timer branch before the first one that
    does not, and whether some [select] sees the cancellation. *)
Fixpoint leading_timers (sels : list select_case) : nat :=
  match sels with
  | TimerC :: rest => S (leading_timers rest)
  | _ => 0
  end.

Definition cancelled (sels : list select_case) : bool :=
  existsb (fun s => match s with CtxDone => true | TimerC => false end) sels.

(** Every substrate call goes through handle [h], and every [dht.New]
    gets the options [opts]. *)
Definition handle_ev (h : option IpfsDHT) (opts : list dhtOption) (e : event) : Prop :=
  match e with
  | EvBootstrap k _ | EvAdvertise k _ | EvFindPeers k _ _ => h = Some k
  | EvDhtNew o _ => o = opts
  | _ => True
  end.

(** Events other than creating and bootstrapping the DHT. *)
Definition no_startup_ev (e : event) : Prop :=
  match e with
  | EvDhtNew _ _ | EvBootstrap _ _ => False
  | _ => True
  end.

(** Every timer is armed for [dur]. *)
Definition timer_ev (dur : Z) (e : event) : Prop :=
  match e with
  | EvNewTimer x => x = dur
  | _ => True
  end.

(** The configuration of a session: the fields no method assigns. *)
Definition same_config (d d1 : DHT) : Prop :=
  OTPKey d1 = OTPKey d /\ OTPInterval d1 = OTPInterval d /\
  RendezvousString d1 = RendezvousString d /\
  RefreshDiscoveryTime d1 = RefreshDiscoveryTime d /\
  dhtOptions d1 = dhtOptions d.

Section WithWorld.

Context {W : Type} `{HostW : Host W} `{SubW : Substrate W}.

(** The bootstrap address [a] names peer [id]. *)
Definition parses_to (id : PeerID) (a : Multiaddr) : bool :=
  match AddrInfoFromP2pAddr a with
  | Some p => String.eqb (ID p) id
  | None => false
  end.

(** Every address of the list names a peer. *)
Definition all_parse (peers : AddrList) : Prop :=
  forall a, In a peers -> AddrInfoFromP2pAddr a <> None.

(** Only eligible peers are dialled. *)
Definition dials_eligible (e : event) : Prop :=
  match e with
  | EvConnect q _ => eligible q = true
  | _ => True
  end.

(** A value [Rendezvous] can give in rotating mode, at some time. *)
Definition rotating_value (d : DHT) (rv : string) : Prop :=
  OTPKey d <> EmptyString /\
  exists w : W, rv = totp_Now w (OTPKey d) (KeyLength d) (OTPInterval d).

(** The TOTP generator is not asked, or it does not panic on what the
    session gives it: the key is base32, the interval is not zero and the
    length is not negative. *)
Definition totp_safe (d : DHT) : Prop :=
  OTPKey d = EmptyString \/
  forall w : W, totp_panics w (OTPKey d) (KeyLength d) (OTPInterval d) = false.

(** The bootstrap address [a] names a peer. *)
Definition parsable (a : Multiaddr) : bool :=
  match AddrInfoFromP2pAddr a with
  | Some _ => true
  | None => false
  end.

(** The events of a cycle that starts from session [d]. *)
Definition cycle_ev (d : DHT) (e : event) : Prop :=
  match e with
  | EvAdvertise _ rv =>
      (rv = latestRendezvous d /\ rv <> EmptyString) \/
      (OTPKey d = EmptyString /\ rv = RendezvousString d) \/
      rotating_value d rv
  | EvTOTPNow key digits interval rv =>
      key = OTPKey d /\ digits = KeyLength d /\ interval = OTPInterval d /\
      rotating_value d rv
  | EvFindPeers _ _ _ | EvLog _ _ _ | EvConnectedness _ _ | EvConnect _ _ => True
  | _ => False
  end.

(** What a cycle does to the session: nothing, or a new
    [latestRendezvous] in rotating mode. *)
Definition session_step (d d1 : DHT) : Prop :=
  d1 = d \/ exists rv, rotating_value d rv /\ d1 = set_latestRendezvous rv d.

End WithWorld.

End Pred.

(** * Properties *)

Module Props.
Import Discovery Trace Pred.

(** ** The monad *)

Lemma bind_Ret {W A B} (m : M W A) (f : A -> M W B) w a w1 t1 :
  m w = Ret a w1 t1 ->
  bind m f w = match f a w1 with
               | Ret b w2 t2 => Ret b w2 (t1 ++ t2)
               | Panic t2 => Panic (t1 ++ t2)
               | Dying b w2 t2 n => Dying b w2 (t1 ++ t2) n
               end.
Proof. intros E. unfold bind. now rewrite E. Qed.

Lemma bind_Panic {W A B} (m : M W A) (f : A -> M W B) w t :
  m w = Panic t -> bind m f w = Panic t.
Proof. intros E. unfold bind. now rewrite E. Qed.

Lemma bind_Dying {W A B} (m : M W A) (f : A -> M W B) w a w1 t1 n :
  m w = Dying a w1 t1 n -> bind m f w = cut t1 n (f a w1).
Proof. intros E. unfold bind. now rewrite E. Qed.

Lemma cut_not_Ret {W B} t1 n (o : outcome W B) b w t : cut t1 n o <> Ret b w t.
Proof.
  destruct o as [b0 w0 t0|t0|b0 w0 t0 m]; simpl; try discriminate;
    destruct (length t0 <=? n); discriminate.
Qed.

Lemma bind_Ret_inv {W A B} (m : M W A) (f : A -> M W B) w b w2 t :
  bind m f w = Ret b w2 t ->
  exists a w1 t1 t2, m w = Ret a w1 t1 /\ f a w1 = Ret b w2 t2 /\ t = t1 ++ t2.
Proof.
  unfold bind. destruct (m w) as [a w1 t1|t1|a w1 t1 n]; [|discriminate|].
  - destruct (f a w1) as [b' w2' t2|t2|b' w2' t2 n] eqn:E; try discriminate.
    intros [= -> -> <-]. now exists a, w1, t1, t2.
  - intros H. now apply cut_not_Ret in H.
Qed.

Lemma trace_of_cut {W B} t1 n (o : outcome W B) :
  trace_of (cut t1 n o) = t1 ++ firstn n (trace_of o).
Proof.
  destruct o as [b w t|t|b w t m]; simpl; try reflexivity;
    destruct (Nat.leb_spec (length t) n); simpl; try reflexivity;
    now rewrite firstn_all2.
Qed.

Lemma trace_of_bind {W A B} (m : M W A) (f : A -> M W B) w :
  trace_of (bind m f w) =
  match m w with
  | Ret a w1 t1 => t1 ++ trace_of (f a w1)
  | Panic t1 => t1
  | Dying a w1 t1 n => t1 ++ firstn n (trace_of (f a w1))
  end.
Proof.
  unfold bind. destruct (m w) as [a w1 t1|t1|a w1 t1 n]; [|reflexivity|].
  - now destruct (f a w1).
  - apply trace_of_cut.
Qed.

Lemma Forall_prefix (P : event -> Prop) n t : Forall P t -> Forall P (firstn n t).
Proof.
  intros H. revert n. induction H as [|e t He _ IH]; intros [|n]; simpl;
    constructor; auto.
Qed.

Lemma returned_Ret {W A} (a : A) (w : W) t : returned (Ret a w t) a w t.
Proof. now left. Qed.

Lemma returned_Dying {W A} (a : A) (w : W) t n : returned (Dying a w t n) a w t.
Proof. right. now exists n. Qed.

Lemma returned_Ret_inv {W A} (a b : A) (w w1 : W) t t1 :
  returned (Ret a w t) b w1 t1 -> b = a /\ w1 = w /\ t1 = t.
Proof. intros [[= -> -> ->]|[n H]]; [auto|discriminate H]. Qed.

Lemma returned_Panic_inv {W A} (b : A) (w1 : W) t t1 : ~ returned (Panic t) b w1 t1.
Proof. intros [H|[n H]]; discriminate H. Qed.

Lemma returned_trace {W A} (o : outcome W A) a w t : returned o a w t -> trace_of o = t.
Proof. now intros [->|[n ->]]. Qed.

Lemma returned_sequential {W A} (o : outcome W A) a w t :
  sequential o -> returned o a w t -> o = Ret a w t.
Proof. intros Hs [->|[n ->]]; [reflexivity|destruct Hs]. Qed.

(** A property of all events carries over a bind. *)
Lemma Forall_trace_bind {W A B} (P : event -> Prop) (m : M W A) (f : A -> M W B) w :
  Forall P (trace_of (m w)) ->
  (forall a w1 t1, returned (m w) a w1 t1 -> Forall P (trace_of (f a w1))) ->
  Forall P (trace_of (bind m f w)).
Proof.
  intros Hm Hf. rewrite trace_of_bind.
  destruct (m w) as [a w1 t1|t1|a w1 t1 n] eqn:E; [|exact Hm|].
  - apply Forall_app. split; [exact Hm | apply (Hf a w1 t1), returned_Ret].
  - apply Forall_app. split; [exact Hm|].
    apply Forall_prefix, (Hf a w1 t1), returned_Dying.
Qed.

(** A bind came back: so did both of its parts. *)
Lemma bind_returned_inv {W A B} (m : M W A) (f : A -> M W B) w b w2 t :
  returned (bind m f w) b w2 t ->
  exists a w1 t1 t2,
    returned (m w) a w1 t1 /\ returned (f a w1) b w2 t2 /\ t = t1 ++ t2.
Proof.
  unfold bind. destruct (m w) as [a w1 t1|t1|a w1 t1 n].
  - destruct (f a w1) as [b' w2' t2|t2|b' w2' t2 k] eqn:E.
    + intros [[= -> -> <-]|[k H]]; [|discriminate H].
      exists a, w1, t1, t2. rewrite E. repeat split; apply returned_Ret.
    + intros [H|[k H]]; discriminate H.
    + intros [H|[k0 [= -> -> <- _]]]; [discriminate H|].
      exists a, w1, t1, t2. rewrite E.
      split; [apply returned_Ret|]. split; [apply returned_Dying|reflexivity].
  - intros [H|[k H]]; discriminate H.
  - intros [H|[k H]]; [now apply cut_not_Ret in H|].
    exists a, w1, t1. destruct (f a w1) as [b' w2' t2|t2|b' w2' t2 k0]; simpl in H.
    + destruct (length t2 <=? n); [|discriminate H]. injection H as -> -> <- _.
      exists t2. split; [apply returned_Dying|]. split; [apply returned_Ret|reflexivity].
    + discriminate H.
    + destruct (length t2 <=? n); [|discriminate H]. injection H as -> -> <- _.
      exists t2. split; [apply returned_Dying|]. split; [apply returned_Dying|reflexivity].
Qed.

Lemma bind_ext {W A B} (m : M W A) (f g : A -> M W B) w :
  (forall a w1, f a w1 = g a w1) -> bind m f w = bind m g w.
Proof. intros H. unfold bind. destruct (m w); now rewrite ?H. Qed.

Lemma panicked_bind {W A B} (m : M W A) (f : A -> M W B) w :
  panicked (bind m f w) =
  match m w with
  | Ret a w1 _ => panicked (f a w1)
  | _ => true
  end.
Proof.
  unfold bind. destruct (m w) as [a w1 t1|t1|a w1 t1 n]; [|reflexivity|].
  - now destruct (f a w1).
  - destruct (f a w1) as [b w2 t2|t2|b w2 t2 k]; simpl; try reflexivity;
      now destruct (length t2 <=? n).
Qed.

Lemma sequential_bind {W A B} (m : M W A) (f : A -> M W B) w :
  sequential (m w) ->
  (forall a w1 t1, m w = Ret a w1 t1 -> sequential (f a w1)) ->
  sequential (bind m f w).
Proof.
  intros Hm Hf. unfold bind. destruct (m w) as [a w1 t1|t1|a w1 t1 n].
  - specialize (Hf a w1 t1 eq_refl). now destruct (f a w1).
  - exact I.
  - destruct Hm.
Qed.

Section WithWorld.

Context {W : Type} `{HostW : Host W} `{SubW : Substrate W}.

(** ** Logging through a logger that is there *)

Lemma Debug_Some l m (w : W) : Debug (Some l) m w = Ret tt w [EvLog l LvlDebug m].
Proof. reflexivity. Qed.

Lemma Info_Some l m (w : W) : Info (Some l) m w = Ret tt w [EvLog l LvlInfo m].
Proof. reflexivity. Qed.

(** ** The announce pass *)

(** With a logger in place, examining one peer returns; it asks for the
    connectedness of the peer exactly when the peer is eligible. *)
Lemma announce_peer_returns d l p (w : W) :
  console d = Some l ->
  exists w1 t, announce_peer d p w = Ret tt w1 t /\
               checked_ids t = if eligible p then [ID p] else [].
Proof.
  intros Hc. unfold announce_peer, eligible.
  destruct (String.eqb (ID p) host_ID || Nat.eqb (length (Addrs p)) 0); simpl.
  - now exists w, [].
  - rewrite Hc. unfold bind, call_Connectedness, call_Connect. simpl.
    destruct (connectedness_eqb (Connectedness w (ID p)) Connected); simpl.
    + eexists _, _. split; reflexivity.
    + destruct (Connect w p) as [[e|] w1]; simpl; eexists _, _; split; reflexivity.
Qed.

Lemma checked_ids_app t1 t2 : checked_ids (t1 ++ t2) = checked_ids t1 ++ checked_ids t2.
Proof. unfold checked_ids. apply flat_map_app. Qed.

(** The loop visits every peer of the channel, whatever the dials before
    gave. *)
Lemma range_peerChan_returns d l peers : forall (w : W),
  console d = Some l ->
  exists w1 t, range_peerChan d peers w = Ret tt w1 t /\
               checked_ids t = map ID (List.filter eligible peers).
Proof.
  induction peers as [|p rest IH]; intros w Hc; simpl.
  - now exists w, [].
  - destruct (announce_peer_returns d l p w Hc) as (w1 & t1 & E1 & C1).
    destruct (IH w1 Hc) as (w2 & t2 & E2 & C2).
    exists w2, (t1 ++ t2). split.
    + rewrite (bind_Ret _ _ _ _ _ _ E1). now rewrite E2.
    + rewrite checked_ids_app, C1, C2. now destruct (eligible p).
Qed.

(** The pass up to the lookup, with a logger in place. *)
Lemma announceAndConnect_unfold d l k rv (w : W) :
  console d = Some l ->
  announceAndConnect d k rv w =
  let pre := [EvLog l LvlDebug MsgAnnouncing; EvAdvertise k rv;
              EvLog l LvlDebug MsgAnnounced; EvLog l LvlDebug MsgSearching] in
  let '(r, w1) := FindPeers (Advertise w k rv) k rv in
  let ev := EvFindPeers k rv (result_error r) in
  match r with
  | inl err => Ret (Some err) w1 (pre ++ [ev])
  | inr peerChan =>
      match range_peerChan d peerChan w1 with
      | Ret _ w2 t => Ret None w2 (pre ++ ev :: t)
      | Panic t => Panic (pre ++ ev :: t)
      | Dying _ w2 t n => Dying None w2 (pre ++ ev :: t) n
      end
  end.
Proof.
  intros Hc. unfold announceAndConnect. rewrite Hc.
  unfold bind, call_Advertise, call_FindPeers. simpl.
  destruct (FindPeers (Advertise w k rv) k rv) as [[err|peerChan] w1]; simpl.
  - reflexivity.
  - destruct (range_peerChan d peerChan w1) as [[] w2 t|t|[] w2 t n]; simpl.
    + now rewrite app_nil_r.
    + reflexivity.
    + now rewrite app_nil_r, Nat.sub_0_r.
Qed.

(** C1.  With the logger of the session in place, [announceAndConnect]
    returns for every rendezvous string, and it returns an error exactly
    when [FindPeers] did, that error.  When the lookup started, the pass
    returns nil whatever the dials gave: a failed [host.Connect] in the
    trace goes with a nil result, and the connectedness of every eligible
    peer of the channel was asked, in channel order, so no failed dial cut
    the iteration short. *)
Theorem announceAndConnect_error_iff d l k rv (w : W) :
  console d = Some l ->
  exists r w1 t,
    announceAndConnect d k rv w = Ret r w1 t /\
    (forall e, r = Some e <-> fst (FindPeers (Advertise w k rv) k rv) = inl e) /\
    (forall p e, In (EvConnect p (Some e)) t -> r = None) /\
    (forall peers, fst (FindPeers (Advertise w k rv) k rv) = inr peers ->
       r = None /\ checked_ids t = map ID (List.filter eligible peers)).
Proof.
  intros Hc. rewrite (announceAndConnect_unfold d l k rv w Hc).
  destruct (FindPeers (Advertise w k rv) k rv) as [[err|peerChan] w1]; simpl.
  - eexists _, _, _. split; [reflexivity|]. repeat split.
    + now intros [= ->].
    + now intros [= ->].
    + intros p e Hin. exfalso.
      repeat (destruct Hin as [Hin|Hin]; [discriminate Hin|]). exact Hin.
    + discriminate.
    + discriminate.
  - destruct (range_peerChan_returns d l peerChan w1 Hc) as (w2 & t & E & C).
    rewrite E. eexists _, _, _. split; [reflexivity|]. repeat split.
    + discriminate.
    + discriminate.
    + match goal with H : inr _ = inr _ |- _ => now injection H as <- end.
Qed.

Lemma bind_ret_l {A B} (a : A) (f : A -> M W B) (w : W) : bind (ret a) f w = f a w.
Proof. unfold bind, ret. now destruct (f a w). Qed.

Lemma announce_peer_dials_eligible d q (w : W) :
  Forall dials_eligible (trace_of (announce_peer d q w)).
Proof.
  unfold announce_peer.
  destruct (String.eqb (ID q) host_ID || Nat.eqb (length (Addrs q)) 0) eqn:Hskip.
  - constructor.
  - assert (He : eligible q = true) by (unfold eligible; now rewrite Hskip).
    unfold bind, call_Connectedness, call_Connect, Debug, deref. simpl.
    destruct (connectedness_eqb (Connectedness w (ID q)) Connected); simpl;
      destruct (console d); simpl; repeat constructor.
    destruct (Connect w q) as [[e|] w1]; simpl; repeat constructor; exact He.
Qed.

Lemma range_peerChan_dials_eligible d peers : forall (w : W),
  Forall dials_eligible (trace_of (range_peerChan d peers w)).
Proof.
  induction peers as [|q rest IH]; intros w; simpl.
  - constructor.
  - apply Forall_trace_bind; [apply announce_peer_dials_eligible|].
    intros; apply IH.
Qed.

Lemma announceAndConnect_dials_eligible d k rv (w : W) :
  Forall dials_eligible (trace_of (announceAndConnect d k rv w)).
Proof.
  unfold announceAndConnect.
  repeat (apply Forall_trace_bind;
          [ unfold Debug, deref, bind, call_Advertise, call_FindPeers;
            destruct (console d); simpl;
            try destruct (FindPeers _ _ _) as [? ?]; simpl; repeat constructor
          | intros ]).
  match goal with |- context [match ?r with inl _ => _ | inr _ => _ end] => destruct r end.
  - constructor.
  - apply Forall_trace_bind; [apply range_peerChan_dials_eligible|].
    intros; constructor.
Qed.

(** C8.  A peer yielded by the lookup whose identity is the host's own, or
    whose address list is empty, is passed over: the loop goes on with the
    rest of the channel from the same world with nothing called in
    between, and no trace of an announce pass holds a [host.Connect] on
    such a peer. *)
Theorem announce_skips_self_and_addressless d p :
  ID p = host_ID \/ Addrs p = [] ->
  (forall rest (w : W), range_peerChan d (p :: rest) w = range_peerChan d rest w) /\
  (forall k rv (w : W) r,
     ~ In (EvConnect p r) (trace_of (announceAndConnect d k rv w))).
Proof.
  intros Hskip.
  assert (Hb : String.eqb (ID p) host_ID || Nat.eqb (length (Addrs p)) 0 = true).
  { destruct Hskip as [Hid|Hno].
    - rewrite Hid, String.eqb_refl. reflexivity.
    - rewrite Hno. simpl. apply orb_true_r. }
  split.
  - intros rest w. simpl. unfold announce_peer. rewrite Hb.
    exact (bind_ret_l tt (fun _ => range_peerChan d rest) w).
  - intros k rv w r Hin.
    pose proof (announceAndConnect_dials_eligible d k rv w) as HF.
    rewrite List.Forall_forall in HF. specialize (HF _ Hin). simpl in HF.
    unfold eligible in HF. rewrite Hb in HF. discriminate.
Qed.

(** ** Dials are guarded by a report of not connected *)

Lemma guarded_with_zero t : guarded_with (fun _ => 0) t <-> guarded t.
Proof. reflexivity. Qed.

Lemma dials_app id t1 t2 : dials id (t1 ++ t2) = dials id t1 + dials id t2.
Proof. unfold dials. now rewrite List.filter_app, length_app. Qed.

Lemma clearances_app id t1 t2 :
  clearances id (t1 ++ t2) = clearances id t1 + clearances id t2.
Proof. unfold clearances. now rewrite List.filter_app, length_app. Qed.

(** After [t1] the credit left is [cr1]; then [t2] may be appended. *)
Lemma guarded_with_app cr cr1 t1 t2 :
  guarded_with cr t1 ->
  (forall id, dials id t1 + cr1 id <= cr id + clearances id t1) ->
  guarded_with cr1 t2 ->
  guarded_with cr (t1 ++ t2).
Proof.
  intros G1 Hbal G2 n id. rewrite firstn_app.
  destruct (Nat.le_gt_cases n (length t1)) as [Hle|Hgt].
  - replace (n - length t1) with 0 by lia. simpl. rewrite app_nil_r. apply G1.
  - rewrite firstn_all2 by lia. rewrite dials_app, clearances_app.
    specialize (G2 (n - length t1) id). specialize (Hbal id). lia.
Qed.

Lemma guarded_with_nil cr : guarded_with cr [].
Proof. intros n id. rewrite firstn_nil. unfold dials, clearances. simpl. lia. Qed.

Lemma neutral_dials id t : forallb neutral t = true -> dials id t = 0.
Proof.
  induction t as [|e t IH]; [reflexivity|]. simpl. intros H.
  apply andb_true_iff in H as [He Ht]. unfold dials in *. simpl.
  destruct e; try discriminate He; simpl; auto.
Qed.

Lemma neutral_firstn n t : forallb neutral t = true -> forallb neutral (firstn n t) = true.
Proof.
  revert n. induction t as [|e t IH]; intros [|n] H; simpl in *; auto.
  apply andb_true_iff in H as [He Ht]. rewrite He. simpl. now apply IH.
Qed.

Lemma guarded_with_neutral cr t : forallb neutral t = true -> guarded_with cr t.
Proof.
  intros H n id. rewrite (neutral_dials id (firstn n t)); [lia|].
  now apply neutral_firstn.
Qed.

(** A report followed by neutral events. *)
Lemma guarded_with_report cr id0 s t :
  forallb neutral t = true -> guarded_with cr (EvConnectedness id0 s :: t).
Proof.
  intros H n id. destruct n as [|n]; simpl.
  - unfold dials. simpl. lia.
  - pose proof (neutral_dials id (firstn n t) (neutral_firstn n t H)) as D.
    unfold dials in *. simpl. lia.
Qed.

(** A dial that was paid for, followed by neutral events. *)
Lemma guarded_with_dial cr p r t :
  1 <= cr (ID p) -> forallb neutral t = true -> guarded_with cr (EvConnect p r :: t).
Proof.
  intros Hcr H n id. destruct n as [|n]; simpl.
  - unfold dials. simpl. lia.
  - pose proof (neutral_dials id (firstn n t) (neutral_firstn n t H)) as D.
    unfold dials in *. simpl.
    destruct (String.eqb (ID p) id) eqn:E; simpl; [|lia].
    apply String.eqb_eq in E. subst id. lia.
Qed.

(** What holds of every prefix holds of every prefix of a prefix. *)
Lemma guarded_with_prefix cr k t : guarded_with cr t -> guarded_with cr (firstn k t).
Proof. intros G n id. rewrite firstn_firstn. apply G. Qed.

Lemma guarded_bind {A B} (m : M W A) (f : A -> M W B) (w : W) :
  guarded (trace_of (m w)) ->
  (forall a w1 t1, returned (m w) a w1 t1 -> guarded (trace_of (f a w1))) ->
  guarded (trace_of (bind m f w)).
Proof.
  intros Gm Gf. rewrite trace_of_bind.
  destruct (m w) as [a w1 t1|t1|a w1 t1 k] eqn:E; [|exact Gm|];
    simpl in Gm; apply (guarded_with_app (fun _ => 0) (fun _ => 0) t1 _ Gm).
  - intros id. specialize (Gm (length t1) id). rewrite firstn_all in Gm. lia.
  - apply (Gf a w1 t1), returned_Ret.
  - intros id. specialize (Gm (length t1) id). rewrite firstn_all in Gm. lia.
  - apply guarded_with_prefix, (Gf a w1 t1), returned_Dying.
Qed.

(** A report of not connected, then the dial it allows. *)
Lemma guarded_with_report_dial cr p s r t1 t2 :
  connectedness_eqb s Connected = false ->
  forallb neutral t1 = true -> forallb neutral t2 = true ->
  guarded_with cr (EvConnectedness (ID p) s :: t1 ++ EvConnect p r :: t2).
Proof.
  intros Hs N1 N2.
  apply (guarded_with_app cr
           (fun id => cr id + if String.eqb (ID p) id then 1 else 0)
           (EvConnectedness (ID p) s :: t1) (EvConnect p r :: t2)).
  - now apply guarded_with_report.
  - intros id. pose proof (neutral_dials id t1 N1) as D.
    unfold dials, clearances in *. simpl.
    rewrite Hs. destruct (String.eqb (ID p) id); simpl; lia.
  - apply guarded_with_dial; [|exact N2]. rewrite String.eqb_refl. lia.
Qed.

Ltac with_credit :=
  match goal with
  | |- guarded ?t => change (guarded_with (fun _ => 0) t)
  end.

Lemma announce_peer_guarded d p (w : W) : guarded (trace_of (announce_peer d p w)).
Proof.
  with_credit. unfold announce_peer.
  destruct (String.eqb (ID p) host_ID || Nat.eqb (length (Addrs p)) 0).
  - apply guarded_with_nil.
  - unfold bind, call_Connectedness, call_Connect, Debug, deref. simpl.
    destruct (connectedness_eqb (Connectedness w (ID p)) Connected) eqn:Hs; simpl.
    + destruct (console d); simpl; now apply guarded_with_report.
    + destruct (console d) as [l|]; simpl; [|now apply guarded_with_report].
      destruct (Connect w p) as [[e|] w1]; simpl;
        now apply (guarded_with_report_dial _ p _ _ [_] [_]).
Qed.

Lemma range_peerChan_guarded d peers : forall (w : W),
  guarded (trace_of (range_peerChan d peers w)).
Proof.
  induction peers as [|p rest IH]; intros w; simpl.
  - with_credit. apply guarded_with_nil.
  - apply guarded_bind; [apply announce_peer_guarded|]. intros; apply IH.
Qed.

Lemma announceAndConnect_guarded d k rv (w : W) :
  guarded (trace_of (announceAndConnect d k rv w)).
Proof.
  unfold announceAndConnect.
  repeat (apply guarded_bind;
          [ with_credit; apply guarded_with_neutral;
            unfold Debug, deref, bind, call_Advertise, call_FindPeers;
            destruct (console d); simpl;
            try destruct (FindPeers _ _ _) as [? ?]; reflexivity
          | intros ]).
  match goal with |- context [match ?r with inl _ => _ | inr _ => _ end] => destruct r end.
  - with_credit. apply guarded_with_nil.
  - apply guarded_bind; [apply range_peerChan_guarded|].
    intros. with_credit. apply guarded_with_nil.
Qed.

(** *** The bootstrap goroutines *)

Lemma goroutine_step_check c p (w : W) :
  goroutine_step c (GCheck (Some p)) w =
  Ret (if connectedness_eqb (Connectedness w (ID p)) Connected then GDone else GDial p)
      w [EvConnectedness (ID p) (Connectedness w (ID p))].
Proof.
  unfold goroutine_step, bind, call_Connectedness. simpl.
  now destruct (connectedness_eqb (Connectedness w (ID p)) Connected).
Qed.

Lemma goroutine_step_nil c (w : W) : goroutine_step c (GCheck None) w = Ret GPanicked w [].
Proof. reflexivity. Qed.

Lemma goroutine_step_dial c p (w : W) :
  goroutine_step c (GDial p) w =
  let '(r, w1) := Connect w p in
  match c with
  | Some l =>
      Ret GDone w1
        [EvConnect p r;
         EvLog l LvlDebug (match r with
                           | Some err => MsgError err
                           | None => MsgBootstrapConnected p
                           end)]
  | None => Ret GPanicked w1 [EvConnect p r]
  end.
Proof.
  unfold goroutine_step, bind, call_Connect, go_Debug.
  destruct (Connect w p) as [[e|] w1]; destruct c; reflexivity.
Qed.

(** A step of a goroutine always comes back; what it can have been. *)
Lemma goroutine_step_total c g (w : W) :
  exists g1 w1 t, goroutine_step c g w = Ret g1 w1 t.
Proof.
  destruct g as [[p|]|p| |].
  - rewrite goroutine_step_check. now eexists _, _, _.
  - now eexists _, _, _.
  - rewrite goroutine_step_dial. destruct (Connect w p) as [r w1].
    destruct c; now eexists _, _, _.
  - now eexists _, _, _.
  - now eexists _, _, _.
Qed.

Lemma goroutine_step_Ret_cases c g (w : W) g1 w1 t :
  goroutine_step c g w = Ret g1 w1 t ->
  (exists p, g = GCheck (Some p) /\
             t = [EvConnectedness (ID p) (Connectedness w (ID p))] /\
             g1 = if connectedness_eqb (Connectedness w (ID p)) Connected
                  then GDone else GDial p) \/
  (g = GCheck None /\ t = [] /\ g1 = GPanicked) \/
  (exists p r l m, g = GDial p /\ c = Some l /\
                   t = [EvConnect p r; EvLog l LvlDebug m] /\ g1 = GDone) \/
  (exists p r, g = GDial p /\ c = None /\ t = [EvConnect p r] /\ g1 = GPanicked) \/
  ((g = GDone \/ g = GPanicked) /\ t = [] /\ g1 = g).
Proof.
  destruct g as [[p|]|p| |].
  - rewrite goroutine_step_check. intros [= <- _ <-]. left. now exists p.
  - intros [= <- _ <-]. right. now left.
  - rewrite goroutine_step_dial. destruct (Connect w p) as [r w2].
    destruct c as [l|]; intros [= <- _ <-].
    + right. right. left. now eexists p, r, l, _.
    + right. right. right. left. now exists p, r.
  - intros [= <- _ <-]. do 4 right. auto.
  - intros [= <- _ <-]. do 4 right. auto.
Qed.

(** A step of the pool is the step of its goroutine; when that goroutine
    panics the process starts going down. *)
Lemma pool_step_eq c i pool (w : W) g g1 w1 t :
  pool !! i = Some g ->
  goroutine_step c g w = Ret g1 w1 t ->
  pool_step c i pool w =
  if just_panicked g g1 then Dying (<[i := g1]> pool) w1 t (exit_delay w1)
  else Ret (<[i := g1]> pool) w1 t.
Proof.
  intros Hi E. unfold pool_step. rewrite Hi, (bind_Ret _ _ _ _ _ _ E).
  destruct (just_panicked g g1); unfold bind, doom, ret; simpl;
    now rewrite ?app_nil_r, ?Nat.sub_0_r.
Qed.

Lemma pool_step_none c i pool (w : W) :
  pool !! i = None -> pool_step c i pool w = Ret pool w [].
Proof. intros Hi. unfold pool_step. now rewrite Hi. Qed.

Lemma pool_step_returned_inv c i pool (w : W) pool1 w1 t :
  returned (pool_step c i pool w) pool1 w1 t ->
  (pool !! i = None /\ pool1 = pool /\ w1 = w /\ t = []) \/
  (exists g g1, pool !! i = Some g /\ goroutine_step c g w = Ret g1 w1 t /\
                pool1 = <[i := g1]> pool).
Proof.
  destruct (pool !! i) as [g|] eqn:Hi.
  - destruct (goroutine_step_total c g w) as (g1 & w2 & t2 & E).
    rewrite (pool_step_eq c i pool w g g1 w2 t2 Hi E). intros H. right. exists g, g1.
    destruct (just_panicked g g1);
      destruct H as [H|[n H]]; try discriminate H; injection H as <- <- <-; auto.
  - rewrite (pool_step_none c i pool w Hi). intros [[= <- <- <-]|[n H]];
      [now left|discriminate H].
Qed.

Lemma pool_step_trace c i pool (w : W) :
  trace_of (pool_step c i pool w) =
  match pool !! i with
  | Some g => trace_of (goroutine_step c g w)
  | None => []
  end.
Proof.
  destruct (pool !! i) as [g|] eqn:Hi.
  - destruct (goroutine_step_total c g w) as (g1 & w2 & t2 & E).
    rewrite (pool_step_eq c i pool w g g1 w2 t2 Hi E), E.
    now destruct (just_panicked g g1).
  - now rewrite (pool_step_none c i pool w Hi).
Qed.

Lemma pending_insert id g1 : forall pool i g,
  pool !! i = Some g ->
  pending (<[i := g1]> pool) id + owes id g = pending pool id + owes id g1.
Proof.
  unfold pending. induction pool as [|g0 pool IH]; intros [|i] g Hl; try discriminate.
  - injection Hl as ->. simpl. lia.
  - simpl in *. specialize (IH i g Hl). lia.
Qed.

Lemma pending_spawn_all peers id : pending (spawn_all peers) id = 0.
Proof. unfold pending, spawn_all. induction peers; simpl; auto. Qed.

Lemma guarded_with_bind {A B} cr (cr1 : A -> PeerID -> nat)
  (m : M W A) (f : A -> M W B) (w : W) :
  guarded_with cr (trace_of (m w)) ->
  (forall a w1 t1, returned (m w) a w1 t1 ->
     (forall id, dials id t1 + cr1 a id <= cr id + clearances id t1) /\
     guarded_with (cr1 a) (trace_of (f a w1))) ->
  guarded_with cr (trace_of (bind m f w)).
Proof.
  intros Gm Gf. rewrite trace_of_bind.
  destruct (m w) as [a w1 t1|t1|a w1 t1 k] eqn:E; [|exact Gm|].
  - destruct (Gf a w1 t1 (returned_Ret _ _ _)) as [Hbal G2].
    exact (guarded_with_app cr (cr1 a) t1 _ Gm Hbal G2).
  - destruct (Gf a w1 t1 (returned_Dying _ _ _ _)) as [Hbal G2].
    exact (guarded_with_app cr (cr1 a) t1 _ Gm Hbal (guarded_with_prefix _ _ _ G2)).
Qed.

(** One step of a goroutine keeps the account: its dials and what it
    still owes are what it owed and what it was cleared for. *)
Lemma step_owes id c g (w : W) g1 w1 t :
  goroutine_step c g w = Ret g1 w1 t ->
  dials id t + owes id g1 = owes id g + clearances id t.
Proof.
  intros Hs. apply goroutine_step_Ret_cases in Hs
    as [(p & -> & -> & ->)|[(-> & -> & ->)|[(p & r & l & m & -> & _ & -> & ->)
       |[(p & r & -> & _ & -> & ->)|([->| ->] & -> & ->)]]]];
    unfold dials, clearances; simpl; try reflexivity.
  - destruct (String.eqb (ID p) id) eqn:E;
      destruct (connectedness_eqb (Connectedness w (ID p)) Connected);
      simpl; rewrite ?E; reflexivity.
  - now destruct (String.eqb (ID p) id).
  - now destruct (String.eqb (ID p) id).
Qed.

Lemma step_guarded c g (w : W) g1 w1 t cr :
  goroutine_step c g w = Ret g1 w1 t ->
  (forall id, owes id g <= cr id) ->
  guarded_with cr t.
Proof.
  intros Hs Hcr. apply goroutine_step_Ret_cases in Hs
    as [(p & -> & -> & ->)|[(-> & -> & ->)|[(p & r & l & m & -> & _ & -> & ->)
       |[(p & r & -> & _ & -> & ->)|(_ & -> & ->)]]]];
    try apply guarded_with_nil.
  - now apply guarded_with_report.
  - apply guarded_with_dial; [|reflexivity].
    specialize (Hcr (ID p)). simpl in Hcr. now rewrite String.eqb_refl in Hcr.
  - apply guarded_with_dial; [|reflexivity].
    specialize (Hcr (ID p)). simpl in Hcr. now rewrite String.eqb_refl in Hcr.
Qed.

Lemma owes_le_pending id : forall pool i g,
  pool !! i = Some g -> owes id g <= pending pool id.
Proof.
  unfold pending. induction pool as [|g0 pool IH]; intros [|i] g Hl; try discriminate.
  - injection Hl as ->. simpl. lia.
  - simpl in *. specialize (IH i g Hl). lia.
Qed.

(** One step of the pool keeps the account: the trace of the step is
    covered by the dials pending before it, and what is pending after it is
    what was pending and what the step was cleared for, less its dials. *)
Lemma pool_step_guarded c i pool (w : W) :
  guarded_with (pending pool) (trace_of (pool_step c i pool w)) /\
  (forall pool1 w1 t, returned (pool_step c i pool w) pool1 w1 t ->
     forall id, dials id t + pending pool1 id = pending pool id + clearances id t).
Proof.
  split.
  - rewrite pool_step_trace. destruct (pool !! i) as [g|] eqn:Hi;
      [|apply guarded_with_nil].
    destruct (goroutine_step_total c g w) as (g1 & w1 & t & E). rewrite E. simpl.
    apply (step_guarded c g w g1 w1 t _ E). intros id. now apply (owes_le_pending id pool i).
  - intros pool1 w1 t H id.
    apply pool_step_returned_inv in H
      as [(_ & -> & _ & ->)|(g & g1 & Hi & E & ->)].
    + unfold dials, clearances. simpl. lia.
    + pose proof (step_owes id _ _ _ _ _ _ E) as Hs.
      pose proof (pending_insert id g1 pool i g Hi) as Hp. lia.
Qed.

Lemma run_schedule_guarded c sched : forall pool (w : W),
  guarded_with (pending pool) (trace_of (run_schedule c sched pool w)) /\
  (forall pool1 w1 t, returned (run_schedule c sched pool w) pool1 w1 t ->
     forall id, dials id t + pending pool1 id = pending pool id + clearances id t).
Proof.
  induction sched as [|i rest IH]; intros pool w; simpl.
  - split; [apply guarded_with_nil|].
    intros pool1 w1 t [[= <- <- <-]|[n H]] id; [|discriminate H].
    unfold dials, clearances. simpl. lia.
  - destruct (pool_step_guarded c i pool w) as [G1 B1]. split.
    + apply (guarded_with_bind _ pending); [exact G1|].
      intros pool1 w1 t1 E. split; [|apply IH].
      intros id. specialize (B1 pool1 w1 t1 E id). lia.
    + intros pool2 w2 t E id.
      apply bind_returned_inv in E as (pool1 & w1 & t1 & t2 & E1 & E2 & ->).
      specialize (B1 _ _ _ E1 id). destruct (IH pool1 w1) as [_ B2].
      specialize (B2 _ _ _ E2 id). rewrite dials_app, clearances_app. lia.
Qed.

Lemma bootstrapPeers_guarded sched c d (w : W) :
  guarded (trace_of (bootstrapPeers sched c d w)).
Proof.
  with_credit. unfold bootstrapPeers.
  destruct (run_schedule_guarded c sched (spawn_all (BootstrapPeers d)) w) as [G1 B1].
  apply (guarded_with_bind _ pending).
  - intros n id. specialize (G1 n id). now rewrite pending_spawn_all in G1.
  - intros pool w1 t1 E. split.
    + intros id. specialize (B1 _ _ _ E id). rewrite pending_spawn_all in B1. lia.
    + unfold wg_Wait.
      destruct (run_schedule_guarded c (drain_order (length pool)) pool w1) as [G2 B2].
      apply (guarded_with_bind _ pending); [exact G2|].
      intros pool2 w2 t2 E2. split; [|simpl; apply guarded_with_nil].
      intros id. specialize (B2 pool2 w2 t2 E2 id). lia.
Qed.

(** C7.  In the bootstrap pass, under every interleaving of its
    goroutines, and in the announce pass, each [host.Connect] on a peer is
    paid for by an earlier report of that peer as not connected, one report
    per dial, so a report of [Connected] leads to no dial.  Step by step: a
    bootstrap goroutine whose peer is reported [Connected] is done without
    calling [host.Connect], and the announce loop logs such a peer as
    known and leaves the world as it was. *)
Theorem no_dial_of_connected_peer :
  (forall sched c d (w : W), guarded (trace_of (bootstrapPeers sched c d w))) /\
  (forall d k rv (w : W), guarded (trace_of (announceAndConnect d k rv w))) /\
  (forall c p (w : W),
     Connectedness w (ID p) = Connected ->
     goroutine_step c (GCheck (Some p)) w =
     Ret GDone w [EvConnectedness (ID p) Connected]) /\
  (forall d l p (w : W),
     console d = Some l -> eligible p = true ->
     Connectedness w (ID p) = Connected ->
     announce_peer d p w =
     Ret tt w [EvConnectedness (ID p) Connected; EvLog l LvlDebug (MsgKnownPeer p)]).
Proof.
  split; [|split; [|split]].
  - intros. apply bootstrapPeers_guarded.
  - intros. apply announceAndConnect_guarded.
  - intros c p w Hs. rewrite goroutine_step_check, Hs. reflexivity.
  - intros d l p w Hc He Hs. unfold announce_peer, eligible in *.
    apply negb_true_iff in He. rewrite He, Hc.
    unfold bind, call_Connectedness. simpl. rewrite Hs. reflexivity.
Qed.

(** ** A bootstrap address that does not parse *)

Lemma spawn_all_lookup peers : forall i a,
  peers !! i = Some a -> spawn_all peers !! i = Some (GCheck (AddrInfoFromP2pAddr a)).
Proof.
  induction peers as [|b peers IH]; intros [|i] a Hl; try discriminate; simpl in *.
  - now injection Hl as ->.
  - now apply IH.
Qed.

Lemma In_lookup {A} (a : A) (l : list A) : In a l -> exists i, l !! i = Some a.
Proof.
  induction l as [|b l IH]; intros Hin; [destruct Hin|].
  destruct Hin as [->|Hin].
  - now exists 0.
  - destruct (IH Hin) as [i Hi]. now exists (S i).
Qed.

Lemma In_drain_order i n : i < n -> In i (drain_order n).
Proof.
  intros Hlt. unfold drain_order. apply in_flat_map. exists i. split.
  - apply in_seq. lia.
  - now left.
Qed.

(** A goroutine holding a nil [peerinfo] stays as it is while others step
    without panicking. *)
Lemma pool_step_keeps_nil c j pool (w : W) i pool1 w1 t :
  pool !! i = Some (GCheck None) ->
  pool_step c j pool w = Ret pool1 w1 t ->
  pool1 !! i = Some (GCheck None).
Proof.
  intros Hi E. destruct (pool !! j) as [g|] eqn:Hj.
  - destruct (goroutine_step_total c g w) as (g1 & w2 & t2 & Eg).
    rewrite (pool_step_eq c j pool w g g1 w2 t2 Hj Eg) in E.
    destruct (just_panicked g g1) eqn:Hp; [discriminate E|]. injection E as <- _ _.
    destruct (Nat.eq_dec j i) as [->|Hne].
    + rewrite Hi in Hj. injection Hj as <-. rewrite goroutine_step_nil in Eg.
      injection Eg as <- _ _. discriminate Hp.
    + now rewrite list_lookup_insert_ne.
  - rewrite (pool_step_none c j pool w Hj) in E. now injection E as <- _ _.
Qed.

(** As soon as the scheduler picks it, something has panicked. *)
Lemma run_schedule_nil_panics c sched : forall pool (w : W) i,
  pool !! i = Some (GCheck None) -> In i sched ->
  panicked (run_schedule c sched pool w) = true.
Proof.
  induction sched as [|j rest IH]; intros pool w i Hi Hin; [destruct Hin|].
  simpl. rewrite panicked_bind.
  destruct (pool_step c j pool w) as [pool1 w1 t1|t1|pool1 w1 t1 n] eqn:E;
    try reflexivity.
  pose proof (pool_step_keeps_nil c j pool w i pool1 w1 t1 Hi E) as Hi1.
  destruct Hin as [->|Hin].
  - exfalso.
    rewrite (pool_step_eq c i pool w _ _ _ _ Hi (goroutine_step_nil c w)) in E.
    discriminate E.
  - exact (IH pool1 w1 i Hi1 Hin).
Qed.

Lemma run_schedule_keeps_nil c sched : forall pool (w : W) i pool1 w1 t,
  pool !! i = Some (GCheck None) ->
  run_schedule c sched pool w = Ret pool1 w1 t ->
  pool1 !! i = Some (GCheck None).
Proof.
  induction sched as [|j rest IH]; intros pool w i pool1 w1 t Hi E; simpl in E.
  - now injection E as <- _ _.
  - apply bind_Ret_inv in E as (pool0 & w0 & t1 & t2 & E1 & E2 & _).
    eapply IH; [|exact E2]. eapply pool_step_keeps_nil; eassumption.
Qed.

(** C3, as the code has it.  When an entry of [BootstrapPeers] does not
    parse, [peer.AddrInfoFromP2pAddr] hands back a nil pointer, the error
    is dropped, and the goroutine of that entry reads [peerinfo.ID] through
    it: under every interleaving that goroutine panics instead of passing
    the entry over, and the process goes down with it, during the pass or
    after [wg.Wait()], released by the deferred [wg.Done()], has let the
    pass come back. *)
Theorem bootstrapPeers_unparsable_entry_panics sched c d (w : W) a :
  In a (BootstrapPeers d) ->
  AddrInfoFromP2pAddr a = None ->
  panicked (bootstrapPeers sched c d w) = true.
Proof.
  intros Hin Hbad. apply In_lookup in Hin as [i Hi].
  pose proof (spawn_all_lookup _ _ _ Hi) as Hg. rewrite Hbad in Hg.
  unfold bootstrapPeers. rewrite panicked_bind.
  destruct (run_schedule c sched (spawn_all (BootstrapPeers d)) w)
    as [pool w1 t1|t1|pool w1 t1 n] eqn:E; try reflexivity.
  pose proof (run_schedule_keeps_nil _ _ _ _ _ _ _ _ Hg E) as Hi1.
  assert (Hlt : i < length pool) by (eapply lookup_lt_Some; exact Hi1).
  pose proof (run_schedule_nil_panics c (drain_order (length pool)) pool w1 i Hi1
                (In_drain_order _ _ Hlt)) as Hp.
  rewrite panicked_bind. unfold wg_Wait.
  now destruct (run_schedule c (drain_order (length pool)) pool w1).
Qed.

(** ** A bootstrap pass in which nothing panics *)

(** With a logger, goroutines that hold a peer do not panic. *)
Lemma pool_step_returns l i pool (w : W) :
  nil_free pool ->
  exists pool1 w1 t, pool_step (Some l) i pool w = Ret pool1 w1 t /\ nil_free pool1.
Proof.
  intros Hn. destruct (pool !! i) as [g|] eqn:Hi.
  - assert (Hg : g <> GCheck None).
    { unfold nil_free in Hn. rewrite Forall_lookup in Hn. now apply (Hn i g). }
    destruct (goroutine_step_total (Some l) g w) as (g1 & w1 & t & E).
    rewrite (pool_step_eq _ _ _ _ _ _ _ _ Hi E).
    apply goroutine_step_Ret_cases in E
      as [(p & -> & -> & ->)|[(-> & -> & ->)|[(p & r & l0 & m & -> & _ & -> & ->)
         |[(p & r & -> & Habs & -> & ->)|([->| ->] & -> & ->)]]]];
      try contradiction; try discriminate Habs;
      try (eexists _, _, _; split; [reflexivity|]; now apply Forall_insert).
    destruct (connectedness_eqb (Connectedness w (ID p)) Connected);
      eexists _, _, _; (split; [reflexivity|]); now apply Forall_insert.
  - rewrite (pool_step_none _ _ _ _ Hi). now exists pool, w, [].
Qed.

Lemma run_schedule_returns l sched : forall pool (w : W),
  nil_free pool ->
  exists pool1 w1 t, run_schedule (Some l) sched pool w = Ret pool1 w1 t /\
                     nil_free pool1.
Proof.
  induction sched as [|i rest IH]; intros pool w Hn; simpl.
  - now exists pool, w, [].
  - destruct (pool_step_returns l i pool w Hn) as (p1 & w1 & t1 & E1 & Hn1).
    destruct (IH p1 w1 Hn1) as (p2 & w2 & t2 & E2 & Hn2).
    rewrite (bind_Ret _ _ _ _ _ _ E1), E2. now eexists _, _, _.
Qed.

(** With a logger, and when every bootstrap address parses, the pass
    returns under every interleaving, no goroutine having panicked. *)
Lemma bootstrapPeers_returns sched l d (w : W) :
  (forall a, In a (BootstrapPeers d) -> AddrInfoFromP2pAddr a <> None) ->
  exists w1 t, bootstrapPeers sched (Some l) d w = Ret tt w1 t.
Proof.
  intros Hparse.
  assert (Hn : nil_free (spawn_all (BootstrapPeers d))).
  { unfold nil_free, spawn_all. apply List.Forall_forall. intros g Hg.
    apply in_map_iff in Hg as (a & <- & Ha). intros [= Habs]. now apply (Hparse a). }
  unfold bootstrapPeers.
  destruct (run_schedule_returns l sched _ w Hn) as (p1 & w1 & t1 & E1 & Hn1).
  destruct (run_schedule_returns l (drain_order (length p1)) p1 w1 Hn1)
    as (p2 & w2 & t2 & E2 & _).
  rewrite (bind_Ret _ _ _ _ _ _ E1). unfold wg_Wait.
  rewrite (bind_Ret _ _ _ _ _ _ E2). simpl. now eexists _, _.
Qed.

(** ** What each pass may call *)

Lemma Debug_dial_only c m (w : W) : Forall dial_only (trace_of (Debug c m w)).
Proof. destruct c; simpl; repeat constructor. Qed.

Lemma goroutine_step_dial_only c g (w : W) :
  Forall dial_only (trace_of (goroutine_step c g w)).
Proof.
  destruct g as [[p|]|p| |].
  - rewrite goroutine_step_check. repeat constructor.
  - constructor.
  - rewrite goroutine_step_dial. destruct (Connect w p) as [r w1].
    destruct c; simpl; repeat constructor.
  - constructor.
  - constructor.
Qed.

Lemma pool_step_dial_only c i pool (w : W) :
  Forall dial_only (trace_of (pool_step c i pool w)).
Proof.
  rewrite pool_step_trace. destruct (pool !! i); [|constructor].
  apply goroutine_step_dial_only.
Qed.

Lemma run_schedule_dial_only c sched : forall pool (w : W),
  Forall dial_only (trace_of (run_schedule c sched pool w)).
Proof.
  induction sched as [|i rest IH]; intros pool w; simpl; [constructor|].
  apply Forall_trace_bind; [apply pool_step_dial_only|intros; apply IH].
Qed.

Lemma bootstrapPeers_dial_only sched c d (w : W) :
  Forall dial_only (trace_of (bootstrapPeers sched c d w)).
Proof.
  unfold bootstrapPeers. apply Forall_trace_bind; [apply run_schedule_dial_only|].
  intros pool w1 t1 _. apply Forall_trace_bind; [apply run_schedule_dial_only|].
  intros; constructor.
Qed.

Lemma announce_peer_dial_only d p (w : W) :
  Forall dial_only (trace_of (announce_peer d p w)).
Proof.
  unfold announce_peer.
  destruct (String.eqb (ID p) host_ID || Nat.eqb (length (Addrs p)) 0); [constructor|].
  unfold bind, call_Connectedness, call_Connect, Debug, deref. simpl.
  destruct (connectedness_eqb (Connectedness w (ID p)) Connected); simpl;
    destruct (console d); simpl; repeat constructor.
  destruct (Connect w p) as [[e|] w1]; simpl; repeat constructor.
Qed.

Lemma range_peerChan_dial_only d peers : forall (w : W),
  Forall dial_only (trace_of (range_peerChan d peers w)).
Proof.
  induction peers as [|p rest IH]; intros w; simpl; [constructor|].
  apply Forall_trace_bind; [apply announce_peer_dial_only | intros; apply IH].
Qed.

Lemma advertised_app t1 t2 : advertised (t1 ++ t2) = advertised t1 ++ advertised t2.
Proof. unfold advertised. apply flat_map_app. Qed.

Lemma dial_only_advertised t : Forall dial_only t -> advertised t = [].
Proof.
  induction 1 as [|e t He _ IH]; [reflexivity|].
  unfold advertised in *. simpl. rewrite IH. now destruct e.
Qed.

Lemma timer_count_app t1 t2 : timer_count (t1 ++ t2) = timer_count t1 + timer_count t2.
Proof. unfold timer_count. now rewrite List.filter_app, length_app. Qed.

Lemma dial_only_timer_count t : Forall dial_only t -> timer_count t = 0.
Proof.
  induction 1 as [|e t He _ IH]; [reflexivity|].
  unfold timer_count in *. simpl. now destruct e.
Qed.

(** An announce pass with a logger in place returns, and it advertises its
    rendezvous value once. *)
Lemma announceAndConnect_returns d l k rv (w : W) :
  console d = Some l ->
  exists r w1 t, announceAndConnect d k rv w = Ret r w1 t /\
                 advertised t = [rv] /\ timer_count t = 0.
Proof.
  intros Hc. rewrite (announceAndConnect_unfold d l k rv w Hc).
  destruct (FindPeers (Advertise w k rv) k rv) as [[err|peerChan] w1]; simpl.
  - eexists _, _, _. repeat split.
  - destruct (range_peerChan_returns d l peerChan w1 Hc) as (w2 & t & E & _).
    pose proof (range_peerChan_dial_only d peerChan w1) as Hd. rewrite E in Hd. simpl in Hd.
    rewrite E. eexists _, _, _. split; [reflexivity|]. split.
    + unfold advertised. simpl. fold (advertised t).
      now rewrite (dial_only_advertised t Hd).
    + unfold timer_count. simpl. fold (timer_count t).
      now apply dial_only_timer_count.
Qed.

(** [Rendezvous] leaves the world alone; in rotating mode it panics when
    the generator does. *)
Lemma Rendezvous_static d (w : W) :
  OTPKey d = EmptyString -> Rendezvous d w = Ret (RendezvousString d, d) w [].
Proof. intros H. unfold Rendezvous. now rewrite H. Qed.

Lemma Rendezvous_rotating d (w : W) :
  OTPKey d <> EmptyString ->
  Rendezvous d w =
  if totp_panics w (OTPKey d) (KeyLength d) (OTPInterval d) then Panic []
  else
    let rv := totp_Now w (OTPKey d) (KeyLength d) (OTPInterval d) in
    Ret (rv, set_latestRendezvous rv d) w
        [EvTOTPNow (OTPKey d) (KeyLength d) (OTPInterval d) rv].
Proof.
  intros H. unfold Rendezvous.
  destruct (String.eqb (OTPKey d) EmptyString) eqn:E.
  - now apply String.eqb_eq in E.
  - unfold bind, call_totp_Now. simpl.
    now destruct (totp_panics w (OTPKey d) (KeyLength d) (OTPInterval d)).
Qed.

Lemma Rendezvous_cases d (w : W) :
  (OTPKey d = EmptyString /\ Rendezvous d w = Ret (RendezvousString d, d) w []) \/
  (exists rv, rotating_value d rv /\
     totp_panics w (OTPKey d) (KeyLength d) (OTPInterval d) = false /\
     Rendezvous d w = Ret (rv, set_latestRendezvous rv d) w
                          [EvTOTPNow (OTPKey d) (KeyLength d) (OTPInterval d) rv]) \/
  (OTPKey d <> EmptyString /\
   totp_panics w (OTPKey d) (KeyLength d) (OTPInterval d) = true /\
   Rendezvous d w = Panic []).
Proof.
  destruct (String.eqb (OTPKey d) EmptyString) eqn:E.
  - apply String.eqb_eq in E. left. split; [exact E | now apply Rendezvous_static].
  - apply String.eqb_neq in E. right. rewrite (Rendezvous_rotating d w E).
    destruct (totp_panics w (OTPKey d) (KeyLength d) (OTPInterval d)); [now right|].
    left. exists (totp_Now w (OTPKey d) (KeyLength d) (OTPInterval d)).
    repeat split; [exact E | now exists w].
Qed.

(** What [Rendezvous] comes to: a panic of the generator, or a value and
    the session to go on with. *)
Lemma Rendezvous_outcome d (w : W) :
  (OTPKey d <> EmptyString /\
   totp_panics w (OTPKey d) (KeyLength d) (OTPInterval d) = true /\
   Rendezvous d w = Panic []) \/
  (exists rv d1 tr,
     Rendezvous d w = Ret (rv, d1) w tr /\
     console d1 = console d /\ advertised tr = [] /\ timer_count tr = 0).
Proof.
  destruct (Rendezvous_cases d w) as [[_ E]|[(rv & _ & _ & E)|H]]; [| |now left];
    right; rewrite E; now eexists _, _, _.
Qed.

(** ** One discovery cycle *)

(** The announce steps of a cycle with a logger in place, from any world
    [w1]: the pass under the previous value, if there is one, returns
    (trace [tp], world [w2]); then the generator panics, or [Rendezvous]
    gives the current value and the pass under it returns. *)
Lemma announce_steps_cases k d l (w1 : W) :
  console d = Some l ->
  exists w2 tp,
    (if String.eqb (latestRendezvous d) EmptyString
     then w2 = w1 /\ tp = []
     else exists r0,
            announceAndConnect d k (latestRendezvous d) w1 = Ret r0 w2 tp /\
            advertised tp = [latestRendezvous d]) /\
    ((OTPKey d <> EmptyString /\
      totp_panics w2 (OTPKey d) (KeyLength d) (OTPInterval d) = true /\
      Rendezvous d w2 = Panic [] /\
      announce_steps k d w1 = Panic tp) \/
     (exists rv d1 tr r w3 tc,
        Rendezvous d w2 = Ret (rv, d1) w2 tr /\
        announceAndConnect d1 k rv w2 = Ret r w3 tc /\
        announce_steps k d w1 = Ret d1 w3 (tp ++ tr ++ tc) /\
        advertised tr = [] /\ advertised tc = [rv] /\
        timer_count (tp ++ tr ++ tc) = 0)).
Proof.
  intros Hc.
  assert (Hprev : exists w2 tp,
    (if String.eqb (latestRendezvous d) EmptyString
     then w2 = w1 /\ tp = []
     else exists r0,
            announceAndConnect d k (latestRendezvous d) w1 = Ret r0 w2 tp /\
            advertised tp = [latestRendezvous d]) /\
    (if negb (String.eqb (latestRendezvous d) EmptyString)
     then announceAndConnect d k (latestRendezvous d) ;;; ret tt
     else ret tt) w1 = Ret tt w2 tp /\ timer_count tp = 0).
  { destruct (String.eqb (latestRendezvous d) EmptyString) eqn:Hprev; simpl.
    - now exists w1, [].
    - destruct (announceAndConnect_returns d l k (latestRendezvous d) w1 Hc)
        as (r0 & w2 & tp & EP & Hp & Ht).
      exists w2, tp. split; [now exists r0|].
      rewrite (bind_Ret _ _ _ _ _ _ EP). simpl. now rewrite app_nil_r. }
  destruct Hprev as (w2 & tp & Hp & EP & Htp). exists w2, tp. split; [exact Hp|].
  unfold announce_steps. rewrite (bind_Ret _ _ _ _ _ _ EP).
  destruct (Rendezvous_outcome d w2) as [(Hk & Hpan & ER)|(rv & d1 & tr & ER & Hc1 & Hr & Htr)].
  - left. rewrite (bind_Panic _ _ _ _ ER). now rewrite app_nil_r.
  - right. rewrite Hc in Hc1.
    destruct (announceAndConnect_returns d1 l k rv w2 Hc1) as (r & w3 & tc & EA & Ha & Htc).
    rewrite (bind_Ret _ _ _ _ _ _ ER). simpl.
    rewrite (bind_Ret _ _ _ _ _ _ EA). simpl.
    exists rv, d1, tr, r, w3, tc. rewrite app_nil_r, !timer_count_app, Htp, Htr, Htc.
    auto 10.
Qed.

(** C4.  A cycle of a session whose logger is set runs its steps in this
    order, and it runs all of them unless something panics.

    The announce steps, from whatever world [w1] the bootstrap pass left:
    the announce pass under [latestRendezvous] runs and returns (trace
    [tp], world [w2]) exactly when that field is not empty; then
    [Rendezvous] computes the current value.  If the TOTP generator panics
    there, the steps end in that panic, with trace [tp] and no pass under
    a current value.  Otherwise [Rendezvous] gives [rv] (trace [tr]), the
    announce pass under [rv] runs and returns (trace [tc]), and the steps
    return with trace [tp ++ tr ++ tc], having advertised the previous
    value, if any, then the current one.

    The bootstrap pass comes first and advertises nothing.  When it
    returns with no goroutine having panicked, the cycle is the pass
    followed by the announce steps.  When a goroutine of the pass has
    panicked, its deferred [wg.Done()] lets [wg.Wait()] return all the
    same: the announce steps start after the pass in the same order, and
    run for the [n] calls the process has left ([cut]), so the cycle does
    not return in a healthy process.  When the process has exited before
    [wg.Wait()] returned, the runtime having been quicker than the
    goroutines still running, nothing comes back to [connect] and the
    cycle ends with the pass.  A goroutine of the pass panics only when
    the logger given to the pass is nil or an entry of [BootstrapPeers]
    does not parse. *)
Theorem connect_cycle_order sched c k d l (w : W) :
  console d = Some l ->
  (forall w1, exists w2 tp,
     (if String.eqb (latestRendezvous d) EmptyString
      then w2 = w1 /\ tp = []
      else exists r0,
             announceAndConnect d k (latestRendezvous d) w1 = Ret r0 w2 tp) /\
     ((OTPKey d <> EmptyString /\
       totp_panics w2 (OTPKey d) (KeyLength d) (OTPInterval d) = true /\
       Rendezvous d w2 = Panic [] /\
       announce_steps k d w1 = Panic tp /\
       advertised tp =
       (if String.eqb (latestRendezvous d) EmptyString then []
        else [latestRendezvous d])) \/
      (exists rv d1 tr r w3 tc,
         Rendezvous d w2 = Ret (rv, d1) w2 tr /\
         announceAndConnect d1 k rv w2 = Ret r w3 tc /\
         announce_steps k d w1 = Ret d1 w3 (tp ++ tr ++ tc) /\
         advertised (tp ++ tr ++ tc) =
         (if String.eqb (latestRendezvous d) EmptyString then []
          else [latestRendezvous d]) ++ [rv]))) /\
  advertised (trace_of (bootstrapPeers sched c d w)) = [] /\
  (forall w1 tb, bootstrapPeers sched c d w = Ret tt w1 tb ->
     (forall d1 w3 ta, announce_steps k d w1 = Ret d1 w3 ta ->
        connect sched c k d w = Ret d1 w3 (tb ++ ta)) /\
     (forall ta, announce_steps k d w1 = Panic ta ->
        connect sched c k d w = Panic (tb ++ ta))) /\
  (forall w1 tb n, bootstrapPeers sched c d w = Dying tt w1 tb n ->
     connect sched c k d w = cut tb n (announce_steps k d w1) /\
     panicked (connect sched c k d w) = true /\
     trace_of (connect sched c k d w) =
     tb ++ firstn n (trace_of (announce_steps k d w1))) /\
  (forall tb, bootstrapPeers sched c d w = Panic tb ->
     connect sched c k d w = Panic tb) /\
  (panicked (bootstrapPeers sched c d w) = true ->
   c = None \/ ~ all_parse (BootstrapPeers d)).
Proof.
  intros Hc. split; [|split; [|split; [|split; [|split]]]].
  - intros w1. destruct (announce_steps_cases k d l w1 Hc) as (w2 & tp & Hp & Hs).
    exists w2, tp. split.
    { destruct (String.eqb (latestRendezvous d) EmptyString); [exact Hp|].
      destruct Hp as (r0 & E & _). now exists r0. }
    assert (Ha : advertised tp =
                 if String.eqb (latestRendezvous d) EmptyString then []
                 else [latestRendezvous d]).
    { destruct (String.eqb (latestRendezvous d) EmptyString).
      - now destruct Hp as [_ ->].
      - now destruct Hp as (r0 & _ & H). }
    destruct Hs as [(Hk & Hpan & ER & ES)|(rv & d1 & tr & r & w3 & tc & ER & EA & ES & Hr & Hcur & _)].
    + left. auto.
    + right. exists rv, d1, tr, r, w3, tc. rewrite !advertised_app, Ha, Hr, Hcur. auto.
  - apply dial_only_advertised, bootstrapPeers_dial_only.
  - intros w1 tb E. split.
    + intros d1 w3 ta ES. unfold connect. fold (announce_steps k d).
      now rewrite (bind_Ret _ _ _ _ _ _ E), ES.
    + intros ta ES. unfold connect. fold (announce_steps k d).
      now rewrite (bind_Ret _ _ _ _ _ _ E), ES.
  - intros w1 tb n E.
    assert (EC : connect sched c k d w = cut tb n (announce_steps k d w1)).
    { unfold connect. fold (announce_steps k d). now rewrite (bind_Dying _ _ _ _ _ _ _ E). }
    split; [exact EC|]. rewrite EC. split.
    + destruct (announce_steps k d w1) as [? ? t|t|? ? t m]; simpl;
        try destruct (length t <=? n); reflexivity.
    + apply trace_of_cut.
  - intros tb E. unfold connect. now apply bind_Panic.
  - intros Hp. destruct c as [l0|]; [right|now left]. intros Hall.
    destruct (bootstrapPeers_returns sched l0 d w Hall) as (w1 & t & E).
    rewrite E in Hp. discriminate Hp.
Qed.

(** ** The routing handle *)

Lemma startDHT_Some d k (w : W) :
  dht d = Some k -> startDHT d w = Ret (Some k, None, d) w [].
Proof. intros H. unfold startDHT. now rewrite H. Qed.

Lemma startDHT_None d (w : W) :
  dht d = None ->
  startDHT d w =
  let '(r, w1) := dht_New w (dhtOptions d) in
  match r with
  | inl err => Ret (None, Some err, d) w1 [EvDhtNew (dhtOptions d) r]
  | inr kad => Ret (Some kad, None, set_dht (Some kad) d) w1 [EvDhtNew (dhtOptions d) r]
  end.
Proof.
  intros H. unfold startDHT. rewrite H. unfold bind, call_dht_New.
  destruct (dht_New w (dhtOptions d)) as [[err|kad] w1]; simpl; now rewrite ?H.
Qed.

(** [startDHT] always returns; without error it returns the handle that
    is in the [dht] field afterwards, and that handle is not nil. *)
Lemma startDHT_returns d (w : W) :
  exists h err d1 w1 t,
    startDHT d w = Ret (h, err, d1) w1 t /\
    (err = None -> exists k, h = Some k /\ dht d1 = Some k).
Proof.
  destruct (dht d) as [k|] eqn:Hd.
  - rewrite (startDHT_Some d k w Hd). eexists _, _, _, _, _. split; [reflexivity|].
    intros _. now exists k.
  - rewrite (startDHT_None d w Hd).
    destruct (dht_New w (dhtOptions d)) as [[err|kad] w1]; simpl;
      eexists _, _, _, _, _; (split; [reflexivity|]).
    + discriminate.
    + intros _. now exists kad.
Qed.

(** ** Starting up *)

(** C2, as the code has it.  Called with a logger, [Run] always returns,
    and it returns an error in exactly two cases: [startDHT] returned that
    error, or [startDHT] gave a handle and [Bootstrap] on that handle
    returned that error. *)
Theorem Run_error_iff l d (w : W) :
  exists r d1 w1 t,
    Run (Some l) d w = Ret (r, d1) w1 t /\
    forall e, r = RunError e <->
      (exists h d2 w2 t2,
         startDHT (Run_defaults (Some l) d) w = Ret (h, Some e, d2) w2 t2) \/
      (exists k d2 w2 t2,
         startDHT (Run_defaults (Some l) d) w = Ret (Some k, None, d2) w2 t2 /\
         fst (dht_Bootstrap w2 k) = Some e).
Proof.
  unfold Run.
  destruct (startDHT_returns (Run_defaults (Some l) d) w)
    as (h & err & d1 & w1 & t1 & ES & Hh).
  rewrite (bind_Ret _ _ _ _ _ _ ES), ES. destruct err as [e0|].
  - simpl. eexists _, _, _, _. split; [reflexivity|]. intros e. split.
    + intros [= ->]. left. now exists h, d1, w1, t1.
    + intros [(h2 & d2 & w2 & t2 & [= _ -> _ _ _])
             |(k & d2 & w2 & t2 & [= _ _ _ _] & _)]. reflexivity.
  - destruct (Hh eq_refl) as (k & -> & _).
    unfold bind, Info, deref, call_Bootstrap. simpl.
    destruct (dht_Bootstrap w1 k) as [[e1|] w2] eqn:EB; simpl;
      eexists _, _, _, _; (split; [reflexivity|]); intros e; split.
    + intros [= ->]. right. exists k, d1, w1, t1. split; [reflexivity|].
      now rewrite EB.
    + intros [(h2 & d2 & w3 & t2 & [= _ _ _ _])
             |(k2 & d2 & w3 & t2 & [= <- _ <- _] & HB)].
      rewrite EB in HB. simpl in HB. now injection HB as ->.
    + discriminate.
    + intros [(h2 & d2 & w3 & t2 & [= _ _ _ _])
             |(k2 & d2 & w3 & t2 & [= <- _ <- _] & HB)].
      rewrite EB in HB. discriminate HB.
Qed.

(** *** Requests that do not overlap *)

Lemma lookup_repeat {A} (x r : A) n : forall j, repeat x n !! j = Some r -> r = x.
Proof.
  induction n as [|n IH]; intros [|j] H; try discriminate; simpl in H.
  - now injection H.
  - now apply (IH j).
Qed.

(** Once the field holds a handle, every request returns it and calls
    nothing. *)
Lemma startDHT_seq_Some n : forall d k (w : W),
  dht d = Some k ->
  startDHT_seq n d w = Ret (repeat (Some k, None) n, d) w [].
Proof.
  induction n as [|n IH]; intros d k w Hd; simpl; [reflexivity|].
  rewrite (bind_Ret _ _ _ _ _ _ (startDHT_Some d k w Hd)). simpl.
  rewrite (bind_Ret _ _ _ _ _ _ (IH d k w Hd)). reflexivity.
Qed.

(** C5, as the code has it.  For requests that do not overlap, whether
    they come from [Option] or from [Run]: every request returns; at most
    one DHT instance is created over the whole sequence; a session whose
    [dht] field already holds a handle keeps it, creates nothing and
    answers every request with it; and from the first request that
    returned a handle without error on, every request returns that same
    handle without error. *)
Theorem startDHT_sequential_once n : forall d (w : W),
  exists rs d1 w1 t,
    startDHT_seq n d w = Ret (rs, d1) w1 t /\
    created_count t <= 1 /\
    (forall k, dht d = Some k ->
       d1 = d /\ w1 = w /\ t = [] /\ rs = repeat (Some k, None) n) /\
    (forall i j h r, i <= j ->
       rs !! i = Some (Some h, None) -> rs !! j = Some r -> r = (Some h, None)).
Proof.
  induction n as [|n IH]; intros d w.
  - exists [], d, w, []. simpl. repeat split; auto. intros i j h r _ H. discriminate H.
  - destruct (dht d) as [k|] eqn:Hd.
    + exists (repeat (Some k, None) (S n)), d, w, []. split; [|split; [|split]].
      * now apply startDHT_seq_Some.
      * unfold created_count. simpl. lia.
      * intros k0 [= <-]. auto.
      * intros i j h r _ Hi Hj. apply lookup_repeat in Hi, Hj. congruence.
    + cbn [startDHT_seq]. pose proof (startDHT_None d w Hd) as ES.
      destruct (dht_New w (dhtOptions d)) as [[err|kad] w1] eqn:EN; simpl in ES;
        rewrite (bind_Ret _ _ _ _ _ _ ES); cbn [fst snd].
      * destruct (IH d w1) as (rs & d1 & w2 & t & E & Hc & _ & Hsame).
        rewrite (bind_Ret _ _ _ _ _ _ E). simpl.
        eexists _, _, _, _. split; [reflexivity|]. split; [|split].
        -- unfold created_count in *. simpl. rewrite app_nil_r. exact Hc.
        -- intros k Hk. discriminate Hk.
        -- intros [|i] [|j] h r Hij Hi Hj; simpl in *; try discriminate; try lia.
           apply (Hsame i j h r); [lia|assumption|assumption].
      * pose proof (startDHT_seq_Some n (set_dht (Some kad) d) kad w1 eq_refl) as E.
        rewrite (bind_Ret _ _ _ _ _ _ E). simpl.
        eexists _, _, _, _. split; [reflexivity|]. split; [|split].
        -- unfold created_count. simpl. lia.
        -- intros k Hk. discriminate Hk.
        -- intros [|i] [|j] h r Hij Hi Hj; simpl in *; try lia.
           ++ congruence.
           ++ apply lookup_repeat in Hj. injection Hi as <-. exact Hj.
           ++ apply lookup_repeat in Hi, Hj. congruence.
Qed.

(** One request running alone through its program points is [startDHT]. *)
Lemma startDHT_interleave_alone d (w : W) :
  exists h err d1 w1 t,
    startDHT d w = Ret (h, err, d1) w1 t /\
    startDHT_interleave [0; 0; 0; 0] [PcCheck] d w = Ret ([PcDone h err], d1) w1 t.
Proof.
  destruct (dht d) as [k|] eqn:Hd.
  - rewrite (startDHT_Some d k w Hd). eexists _, _, _, _, _. split; [reflexivity|].
    simpl. unfold bind. simpl. rewrite Hd. simpl. rewrite Hd. reflexivity.
  - rewrite (startDHT_None d w Hd).
    cbv [startDHT_interleave bind startDHT_step call_dht_New ret
         lookup list_lookup insert list_insert fst snd].
    rewrite Hd.
    destruct (dht_New w (dhtOptions d)) as [[err|kad] w1]; cbn; rewrite ?Hd;
      eexists _, _, _, _, _; split; reflexivity.
Qed.

(** ** The refresh loop *)

(** C6.  Cancellation seen while the loop waits on its timer: the
    [select] takes the [ctx.Done()] branch, the timer is stopped and the
    goroutine returns, with nothing called in between, so no further cycle
    runs and the world and the session stay as they were.  Whatever the
    later [select]s would have been does not matter, and a loop that meets
    a cancellation ends [Stopped], its trace ending with the arming and the
    stopping of the last timer. *)
Theorem refresh_loop_cancelled_while_waiting sch c k :
  (forall n post d (w : W),
     refresh_loop sch n (CtxDone :: post) c k d w =
     Ret (Stopped, d) w [EvNewTimer (RefreshDiscoveryTime d); EvTimerStop]) /\
  (forall pre n post d (w : W),
     refresh_loop sch n (pre ++ CtxDone :: post) c k d w =
     refresh_loop sch n (pre ++ [CtxDone]) c k d w) /\
  (forall pre n post d (w : W) st d1 w1 t,
     refresh_loop sch n (pre ++ CtxDone :: post) c k d w = Ret (st, d1) w1 t ->
     st = Stopped /\
     exists t0, t = t0 ++ [EvNewTimer (RefreshDiscoveryTime d1); EvTimerStop]).
Proof.
  split; [|split].
  - reflexivity.
  - induction pre as [|[|] pre IH]; intros n post d w; try reflexivity.
    simpl. unfold bind. simpl.
    destruct (connect (sch n) c k d w) as [d1 w1 t1|t1|d1 w1 t1 m]; [|reflexivity|];
      now rewrite (IH (S n) post d1 w1).
  - induction pre as [|[|] pre IH]; intros n post d w st d1 w1 t E.
    + injection E as <- <- <- <-. split; [reflexivity|]. now exists [].
    + injection E as <- <- <- <-. split; [reflexivity|]. now exists [].
    + simpl in E. apply bind_Ret_inv in E as ([] & w2 & t1 & t2 & E1 & E2 & ->).
      injection E1 as <- <-.
      apply bind_Ret_inv in E2 as (d2 & w3 & t3 & t4 & E3 & E4 & ->).
      destruct (IH _ _ _ _ _ _ _ _ E4) as [-> [t0 ->]].
      split; [reflexivity|]. exists ((EvNewTimer (RefreshDiscoveryTime d) :: t3) ++ t0).
      simpl. now rewrite <- app_assoc.
Qed.

(** ** What a cycle calls, and what it does to the session *)

Lemma dial_only_announce_ev rv e : dial_only e -> announce_ev rv e.
Proof. now destruct e. Qed.

Lemma announceAndConnect_events d k rv (w : W) :
  Forall (announce_ev rv) (trace_of (announceAndConnect d k rv w)).
Proof.
  unfold announceAndConnect.
  repeat (apply Forall_trace_bind;
          [ unfold Debug, deref, bind, call_Advertise, call_FindPeers;
            destruct (console d); simpl;
            try destruct (FindPeers _ _ _) as [? ?]; simpl; repeat constructor
          | intros ]).
  match goal with |- context [match ?r with inl _ => _ | inr _ => _ end] => destruct r end.
  - constructor.
  - apply Forall_trace_bind; [|intros; constructor].
    eapply List.Forall_impl; [|apply range_peerChan_dial_only].
    apply dial_only_announce_ev.
Qed.

Lemma connect_events sched c k d (w : W) :
  Forall (cycle_ev d) (trace_of (connect sched c k d w)).
Proof.
  unfold connect. apply Forall_trace_bind.
  { eapply List.Forall_impl; [|apply bootstrapPeers_dial_only]. intros e; now destruct e. }
  intros _ w1 _ _. apply Forall_trace_bind.
  { destruct (String.eqb (latestRendezvous d) EmptyString) eqn:E; [constructor|].
    apply String.eqb_neq in E. simpl.
    apply Forall_trace_bind; [|intros; constructor].
    eapply List.Forall_impl; [|apply announceAndConnect_events].
    intros e He. destruct e; simpl in *; try contradiction; subst; auto 6. }
  intros _ w2 _ _. apply Forall_trace_bind.
  { destruct (Rendezvous_cases d w2) as [[Hk ER]|[(rv & Hrv & _ & ER)|(_ & _ & ER)]];
      rewrite ER; simpl.
    - constructor.
    - constructor; [simpl; tauto | constructor].
    - constructor. }
  intros r w3 t3 ER.
  destruct (Rendezvous_cases d w2) as [[Hk ER1]|[(rv & Hrv & _ & ER1)|(_ & _ & ER1)]];
    rewrite ER1 in ER; [| |now apply returned_Panic_inv in ER];
    apply returned_Ret_inv in ER as (-> & -> & ->); simpl;
    (apply Forall_trace_bind; [|intros; constructor]);
    (eapply List.Forall_impl; [|apply announceAndConnect_events]);
    intros e He; destruct e; simpl in *; try contradiction; subst; auto 6.
Qed.

Lemma connect_session sched c k d (w : W) d1 w1 t :
  returned (connect sched c k d w) d1 w1 t -> session_step d d1.
Proof.
  unfold connect. intros E.
  apply bind_returned_inv in E as (? & w2 & ? & ? & _ & E & _).
  apply bind_returned_inv in E as (? & w3 & ? & ? & _ & E & _).
  apply bind_returned_inv in E as (r & w4 & ? & ? & ER & E & _).
  apply bind_returned_inv in E as (? & w5 & ? & ? & _ & E & _).
  apply returned_Ret_inv in E as (-> & _ & _).
  destruct (Rendezvous_cases d w3) as [[Hk ER1]|[(rv & Hrv & _ & ER1)|(_ & _ & ER1)]];
    rewrite ER1 in ER; [| |now apply returned_Panic_inv in ER];
    apply returned_Ret_inv in ER as (-> & _ & _); simpl.
  - now left.
  - right. now exists rv.
Qed.

(** ** Invariants of a session's lifetime *)

Lemma startDHT_events d (w : W) : Forall startup_ev (trace_of (startDHT d w)).
Proof.
  destruct (dht d) as [k|] eqn:Hd.
  - rewrite (startDHT_Some d k w Hd). constructor.
  - rewrite (startDHT_None d w Hd).
    destruct (dht_New w (dhtOptions d)) as [[err|kad] w1]; repeat constructor.
Qed.

Lemma startDHT_session d (w : W) h err d1 w1 t :
  startDHT d w = Ret (h, err, d1) w1 t ->
  d1 = d \/ exists kad, d1 = set_dht (Some kad) d.
Proof.
  destruct (dht d) as [k|] eqn:Hd.
  - rewrite (startDHT_Some d k w Hd). intros [= _ _ <- _ _]. now left.
  - rewrite (startDHT_None d w Hd).
    destruct (dht_New w (dhtOptions d)) as [[e|kad] w2]; intros [= _ _ <- _ _].
    + now left.
    + right. now exists kad.
Qed.

Lemma Run_events c d (w : W) : Forall startup_ev (trace_of (Run c d w)).
Proof.
  unfold Run. apply Forall_trace_bind; [apply startDHT_events|].
  intros [[h err] d1] w1 t1 _. destruct err as [e|]; [constructor|].
  apply Forall_trace_bind; [destruct c; repeat constructor|].
  intros _ w2 _ _. apply Forall_trace_bind; [destruct h; repeat constructor|].
  intros k w3 _ _. unfold bind, call_Bootstrap.
  destruct (dht_Bootstrap w3 k) as [[e|] w4]; repeat constructor.
Qed.

Lemma startDHT_sequential d (w : W) : sequential (startDHT d w).
Proof.
  destruct (dht d) as [k|] eqn:Hd.
  - now rewrite (startDHT_Some d k w Hd).
  - rewrite (startDHT_None d w Hd).
    now destruct (dht_New w (dhtOptions d)) as [[err|kad] w1].
Qed.

(** [Run] spawns no goroutine before its last statement. *)
Lemma Run_sequential c d (w : W) : sequential (Run c d w).
Proof.
  unfold Run. apply sequential_bind; [apply startDHT_sequential|].
  intros [[h err] d1] w1 t1 _. destruct err as [e|]; [exact I|].
  apply sequential_bind; [now destruct c|].
  intros _ w2 _ _. apply sequential_bind; [now destruct h|].
  intros k w3 _ _. unfold bind, call_Bootstrap.
  now destruct (dht_Bootstrap w3 k) as [[e|] w4].
Qed.

Lemma Run_session_state c d (w : W) r d1 w1 t :
  Run c d w = Ret (r, d1) w1 t ->
  d1 = Run_defaults c d \/ exists kad, d1 = set_dht (Some kad) (Run_defaults c d).
Proof.
  unfold Run. intros E.
  apply bind_Ret_inv in E as ([[h err] d2] & w2 & t1 & t2 & ES & E & _).
  apply startDHT_session in ES.
  destruct err as [e|].
  - injection E as _ <- _ _. exact ES.
  - apply bind_Ret_inv in E as (? & ? & ? & ? & _ & E & _).
    apply bind_Ret_inv in E as (? & ? & ? & ? & _ & E & _).
    apply bind_Ret_inv in E as ([e|] & ? & ? & ? & _ & E & _);
      injection E as _ <- _ _; exact ES.
Qed.

Section Invariant.

(** [Inv] is kept by every cycle and [P] holds of every event a cycle
    emits from a session satisfying [Inv], and of the timer events. *)
Variable Inv : DHT -> Prop.
Variable P : event -> Prop.
Hypothesis Inv_step : forall d d1, Inv d -> session_step d d1 -> Inv d1.
Hypothesis P_cycle : forall d e, Inv d -> cycle_ev d e -> P e.
Hypothesis P_timer : forall dur, P (EvNewTimer dur).
Hypothesis P_stop : P EvTimerStop.

Lemma connect_invariant sched c k d (w : W) :
  Inv d ->
  Forall P (trace_of (connect sched c k d w)) /\
  (forall d1 w1 t, returned (connect sched c k d w) d1 w1 t -> Inv d1).
Proof.
  intros Hi. split.
  - eapply List.Forall_impl; [|apply connect_events]. intros e. now apply P_cycle.
  - intros d1 w1 t E. apply (Inv_step d d1 Hi). eapply connect_session; exact E.
Qed.

Lemma refresh_loop_invariant sch c k sels : forall n d (w : W),
  Inv d ->
  Forall P (trace_of (refresh_loop sch n sels c k d w)) /\
  (forall st d1 w1 t, returned (refresh_loop sch n sels c k d w) (st, d1) w1 t -> Inv d1).
Proof.
  induction sels as [|[|] sels IH]; intros n d w Hi.
  - split; [repeat constructor; apply P_timer|].
    intros st d1 w1 t E. now apply returned_Ret_inv in E as ([= _ ->] & _ & _).
  - split; [repeat constructor; [apply P_timer|apply P_stop]|].
    intros st d1 w1 t E. now apply returned_Ret_inv in E as ([= _ ->] & _ & _).
  - destruct (connect_invariant (sch n) c k d w Hi) as [HP HI]. split.
    + cbn [refresh_loop]. apply Forall_trace_bind; [repeat constructor; apply P_timer|].
      intros u w1 t1 E. apply returned_Ret_inv in E as (_ & Hw & _). subst w1.
      apply Forall_trace_bind; [exact HP|].
      intros d1 w2 t2 E. apply IH. eapply HI; exact E.
    + cbn [refresh_loop]. intros st d1 w1 t E.
      apply bind_returned_inv in E as (? & w2 & ? & ? & E0 & E & _).
      apply returned_Ret_inv in E0 as (_ & Hw & _). subst w2.
      apply bind_returned_inv in E as (d2 & w3 & ? & ? & EC & E & _).
      destruct (IH (S n) d2 w3 (HI _ _ _ EC)) as [_ H]. eapply H; exact E.
Qed.

Hypothesis P_startup : forall e, startup_ev e -> P e.
Hypothesis Inv_dht : forall kad d, Inv d -> Inv (set_dht (Some kad) d).

Lemma Run_session_invariant sch sels c d (w : W) :
  Inv (Run_defaults c d) ->
  Forall P (trace_of (Run_session sch sels c d w)) /\
  (forall err st d1 w1 t,
     Run_session sch sels c d w = Ret (err, st, d1) w1 t -> Inv d1).
Proof.
  intros Hi.
  assert (HR : forall r d1 w1 t, Run c d w = Ret (r, d1) w1 t -> Inv d1).
  { intros r d1 w1 t E. apply Run_session_state in E as [->|[kad ->]]; auto. }
  unfold Run_session, refresh_goroutine. split.
  - apply Forall_trace_bind.
    { eapply List.Forall_impl; [|apply Run_events]. exact P_startup. }
    intros [r d1] w1 t1 E.
    apply (returned_sequential _ _ _ _ (Run_sequential c d w)) in E.
    specialize (HR _ _ _ _ E). simpl.
    destruct r as [e|k]; [constructor|].
    apply Forall_trace_bind; [|intros; constructor].
    destruct (connect_invariant (sch 0) c k d1 w1 HR) as [HP HI].
    apply Forall_trace_bind; [exact HP|].
    intros d2 w2 t2 EC. apply refresh_loop_invariant. eapply HI; exact EC.
  - intros err st d1 w1 t E.
    apply bind_Ret_inv in E as ([r d2] & w2 & ? & ? & ER & E & _).
    specialize (HR _ _ _ _ ER). simpl in E. destruct r as [e|k].
    + now injection E as _ _ <- _ _.
    + apply bind_Ret_inv in E as ([st1 d3] & w3 & ? & ? & EG & E & _).
      injection E as _ _ <- _ _. simpl.
      apply bind_Ret_inv in EG as (d4 & w4 & ? & ? & EC & EL & _).
      destruct (connect_invariant (sch 0) c k d2 w2 HR) as [_ HI].
      destruct (refresh_loop_invariant sch c k sels 1 d4 w4
                  (HI _ _ _ (or_introl EC))) as [_ H].
      eapply H. left. exact EL.
Qed.

End Invariant.

(** ** The length of rotating identifiers *)

Lemma Run_defaults_KeyLength c d :
  KeyLength d = 0%Z -> KeyLength (Run_defaults c d) = 12%Z.
Proof.
  intros H. unfold Run_defaults. rewrite H. simpl.
  now destruct (length (BootstrapPeers d) =? 0).
Qed.

Lemma Run_defaults_fields c d :
  OTPKey (Run_defaults c d) = OTPKey d /\
  latestRendezvous (Run_defaults c d) = latestRendezvous d /\
  RendezvousString (Run_defaults c d) = RendezvousString d /\
  console (Run_defaults c d) = c.
Proof.
  unfold Run_defaults.
  destruct (Z.eqb (KeyLength d) 0); simpl;
    destruct (length (BootstrapPeers d) =? 0); simpl; auto.
Qed.

(** C9.  Let the TOTP library give identifiers of as many characters as
    the digits asked for.  When [KeyLength] is unset (zero), [Run] sets it
    to 12 before anything else, and from then on, whatever the
    interleavings and however long the loop runs: every call to the TOTP
    generator asks for 12 digits and gets an identifier of 12 characters,
    [KeyLength] still is 12 when the session ends, and in rotating mode,
    starting without a previous value, every rendezvous value advertised
    has 12 characters. *)
Theorem KeyLength_defaults_to_12 sch sels c d (w : W) :
  (forall (w0 : W) key digits interval,
     (0 < digits)%Z ->
     String.length (totp_Now w0 key digits interval) = Z.to_nat digits) ->
  KeyLength d = 0%Z ->
  KeyLength (Run_defaults c d) = 12%Z /\
  Forall totp_digits_12 (trace_of (Run_session sch sels c d w)) /\
  (forall err st d1 w1 t,
     Run_session sch sels c d w = Ret (err, st, d1) w1 t -> KeyLength d1 = 12%Z) /\
  (OTPKey d <> EmptyString -> latestRendezvous d = EmptyString ->
   Forall advertise_12 (trace_of (Run_session sch sels c d w))).
Proof.
  intros Hlen H0.
  pose proof (Run_defaults_KeyLength c d H0) as H12.
  assert (Hrot : forall d0 rv, KeyLength d0 = 12%Z -> rotating_value d0 rv ->
                               String.length rv = 12).
  { intros d0 rv Hk [_ [w0 ->]]. rewrite Hk, Hlen; [reflexivity|lia]. }
  split; [exact H12|].
  assert (Hmain :
    Forall totp_digits_12 (trace_of (Run_session sch sels c d w)) /\
    (forall err st d1 w1 t,
       Run_session sch sels c d w = Ret (err, st, d1) w1 t -> KeyLength d1 = 12%Z)).
  { apply (Run_session_invariant (fun d0 => KeyLength d0 = 12%Z) totp_digits_12).
    - intros d0 d1 Hk [->|(rv & _ & ->)]; exact Hk.
    - intros d0 e Hk He. destruct e; simpl in *; try exact I.
      destruct He as (_ & -> & _ & Hrv). split; [exact Hk|]. now apply (Hrot d0).
    - intros; exact I.
    - exact I.
    - intros e He. now destruct e.
    - intros kad d0 Hk. exact Hk.
    - exact H12. }
  destruct Hmain as [Ht Hk]. split; [exact Ht|]. split; [exact Hk|].
  intros Hkey Hlatest.
  destruct (Run_defaults_fields c d) as (Fk & Fl & _ & _).
  apply (Run_session_invariant
           (fun d0 => KeyLength d0 = 12%Z /\ OTPKey d0 <> EmptyString /\
                      (latestRendezvous d0 = EmptyString \/
                       String.length (latestRendezvous d0) = 12))
           advertise_12).
  - intros d0 d1 (Hk0 & Ho & Hl) [->|(rv & Hrv & ->)]; [auto|].
    simpl. split; [exact Hk0|]. split; [exact Ho|]. right. now apply (Hrot d0).
  - intros d0 e (Hk0 & Ho & Hl) He. destruct e; simpl in *; try exact I.
    destruct He as [[-> Hne]|[[Habs _]|Hrv]].
    + destruct Hl as [Hl|Hl]; [contradiction|exact Hl].
    + contradiction.
    + now apply (Hrot d0).
  - intros; exact I.
  - exact I.
  - intros e He. now destruct e.
  - intros kad d0 H. exact H.
  - rewrite Fk, Fl. auto.
Qed.

(** ** Static mode *)

Lemma advertise_count_app t1 t2 :
  advertise_count (t1 ++ t2) = advertise_count t1 + advertise_count t2.
Proof. unfold advertise_count. now rewrite advertised_app, length_app. Qed.

Lemma startup_counts t :
  Forall startup_ev t -> advertise_count t = 0 /\ timer_count t = 0.
Proof.
  induction 1 as [|e t He _ [IHa IHt]]; [split; reflexivity|].
  unfold advertise_count, advertised, timer_count in *. simpl.
  destruct e; simpl in *; try contradiction; now split.
Qed.

Lemma announceAndConnect_Ret_inv d k rv (w : W) r w1 t :
  announceAndConnect d k rv w = Ret r w1 t ->
  advertised t = [rv] /\ timer_count t = 0.
Proof.
  destruct (console d) as [l|] eqn:Hc.
  - destruct (announceAndConnect_returns d l k rv w Hc) as (r0 & w0 & t0 & E & Ha & Ht).
    rewrite E. now intros [= _ _ <-].
  - unfold announceAndConnect. rewrite Hc. discriminate.
Qed.

(** A cycle of a static session: the bootstrap pass, then one announce
    pass under the configured string; the session is left as it was. *)
Lemma announce_steps_static k d (w : W) :
  static_session d ->
  announce_steps k d w = (announceAndConnect d k (RendezvousString d) ;;; ret d) w.
Proof.
  intros [Hk Hl]. unfold announce_steps, Rendezvous. rewrite Hk, Hl. simpl.
  unfold bind. simpl. now destruct (announceAndConnect d k (RendezvousString d) w).
Qed.

Lemma connect_static sched c k d (w : W) :
  static_session d ->
  connect sched c k d w =
  (bootstrapPeers sched c d ;;; announceAndConnect d k (RendezvousString d) ;;; ret d) w.
Proof.
  intros Hs. unfold connect. fold (announce_steps k d).
  apply bind_ext. intros _ w1. now apply announce_steps_static.
Qed.

Lemma connect_static_Ret sched c k d (w : W) d1 w1 t :
  static_session d ->
  connect sched c k d w = Ret d1 w1 t ->
  d1 = d /\ advertise_count t = 1 /\ timer_count t = 0.
Proof.
  intros Hs E. rewrite (connect_static sched c k d w Hs) in E.
  apply bind_Ret_inv in E as ([] & w2 & tb & t2 & EB & E & ->).
  apply bind_Ret_inv in E as (r & w3 & ta & t3 & EA & E & ->).
  injection E as <- _ <-.
  pose proof (bootstrapPeers_dial_only sched c d w) as Hd. rewrite EB in Hd. simpl in Hd.
  apply announceAndConnect_Ret_inv in EA as [Ha Ht].
  split; [reflexivity|].
  rewrite !advertise_count_app, !timer_count_app, (dial_only_timer_count tb Hd), Ht.
  unfold advertise_count. rewrite (dial_only_advertised tb Hd), Ha. now split.
Qed.

(** Each timer of the loop follows exactly one announce pass, but for the
    first one, which follows the cycle run before the loop. *)
Lemma refresh_loop_static_count sch c k sels : forall n d (w : W) st d1 w1 t,
  static_session d ->
  refresh_loop sch n sels c k d w = Ret (st, d1) w1 t ->
  d1 = d /\ timer_count t = S (advertise_count t).
Proof.
  induction sels as [|[|] sels IH]; intros n d w st d1 w1 t Hs E.
  - injection E as _ <- _ <-. now split.
  - injection E as _ <- _ <-. now split.
  - cbn [refresh_loop] in E.
    apply bind_Ret_inv in E as ([] & w2 & t0 & t2 & E0 & E & ->). injection E0 as _ <-.
    apply bind_Ret_inv in E as (d2 & w3 & tc & t3 & EC & E & ->).
    apply (connect_static_Ret _ _ _ _ _ _ _ _ Hs) in EC as (-> & Ha & Ht).
    apply (IH _ _ _ _ _ _ _ Hs) in E as [-> Hcount]. split; [reflexivity|].
    rewrite !advertise_count_app, !timer_count_app, Ha, Ht, Hcount.
    unfold advertise_count, timer_count. simpl. lia.
Qed.

(** C10.  A session in static mode, [OTPKey] empty, that starts with
    [latestRendezvous] empty as every new session does.  Each of its cycles
    is the bootstrap pass followed by one announce pass under
    [RendezvousString], and leaves the session as it was.  Over the whole
    lifetime, whatever the interleavings and however long the loop runs:
    the TOTP generator is never called and nothing is advertised under
    another value; [latestRendezvous] and [OTPKey] are still empty at the
    end; and the announce passes are as many as the timers armed, which is
    one per cycle. *)
Theorem static_mode_single_pass sch sels c d (w : W) :
  OTPKey d = EmptyString -> latestRendezvous d = EmptyString ->
  (forall sched k d0 (w0 : W),
     static_session d0 ->
     connect sched c k d0 w0 =
     (bootstrapPeers sched c d0 ;;;
      announceAndConnect d0 k (RendezvousString d0) ;;; ret d0) w0) /\
  Forall (static_ev (RendezvousString d)) (trace_of (Run_session sch sels c d w)) /\
  (forall err st d1 w1 t,
     Run_session sch sels c d w = Ret (err, st, d1) w1 t ->
     latestRendezvous d1 = EmptyString /\ OTPKey d1 = EmptyString /\
     (err = None -> advertise_count t = timer_count t)).
Proof.
  intros Hk Hl.
  destruct (Run_defaults_fields c d) as (Fk & Fl & Fr & _).
  split; [intros; now apply connect_static|].
  assert (Hmain :
    Forall (static_ev (RendezvousString d)) (trace_of (Run_session sch sels c d w)) /\
    (forall err st d1 w1 t,
       Run_session sch sels c d w = Ret (err, st, d1) w1 t ->
       static_session d1 /\ RendezvousString d1 = RendezvousString d)).
  { apply (Run_session_invariant
             (fun d0 => static_session d0 /\ RendezvousString d0 = RendezvousString d)
             (static_ev (RendezvousString d))).
    - intros d0 d1 [[Hk0 Hl0] Hr0] [->|(rv & [Habs _] & _)]; [now repeat split|contradiction].
    - intros d0 e [[Hk0 Hl0] Hr0] He. destruct e; simpl in *; try exact I.
      + destruct He as [[-> Hne]|[[_ ->]|[Habs _]]]; [contradiction|exact Hr0|contradiction].
      + destruct He as (_ & _ & _ & [Habs _]). contradiction.
    - intros; exact I.
    - exact I.
    - intros e He. now destruct e.
    - intros kad d0 H. exact H.
    - unfold static_session. rewrite Fk, Fl, Fr. auto. }
  destruct Hmain as [HF HS]. split; [exact HF|].
  intros err st d1 w1 t E. destruct (HS _ _ _ _ _ E) as [[Hk1 Hl1] _].
  split; [exact Hl1|]. split; [exact Hk1|]. intros ->.
  unfold Run_session in E.
  apply bind_Ret_inv in E as ([r d2] & w2 & t0 & t2 & ER & E & ->). simpl in E.
  destruct r as [e|k]; [discriminate E|].
  pose proof (Run_events c d w) as Hev. rewrite ER in Hev. simpl in Hev.
  apply startup_counts in Hev as [Ha0 Ht0].
  assert (Hs2 : static_session d2).
  { apply Run_session_state in ER as [->|[kad ->]]; unfold static_session; simpl;
      rewrite Fk, Fl; auto. }
  apply bind_Ret_inv in E as ([st1 d3] & w3 & tg & t3 & EG & E & ->).
  injection E as _ _ _ <-. unfold refresh_goroutine in EG.
  apply bind_Ret_inv in EG as (d4 & w4 & tc & tl & EC & EL & ->).
  apply (connect_static_Ret _ _ _ _ _ _ _ _ Hs2) in EC as (-> & Ha & Ht).
  apply (refresh_loop_static_count _ _ _ _ _ _ _ _ _ _ _ Hs2) in EL as [_ Hcount].
  rewrite !advertise_count_app, !timer_count_app, Ha0, Ht0, Ha, Ht, Hcount.
  unfold advertise_count, timer_count. simpl. lia.
Qed.

(** ** The barrier of the bootstrap pass *)

Lemma pool_step_length c i pool (w : W) pool1 w1 t :
  returned (pool_step c i pool w) pool1 w1 t -> length pool1 = length pool.
Proof.
  intros E. apply pool_step_returned_inv in E
    as [(_ & -> & _ & _)|(g & g1 & _ & _ & ->)]; [reflexivity|apply length_insert].
Qed.

Lemma goroutine_step_progress c g (w : W) g1 w1 t :
  goroutine_step c g w = Ret g1 w1 t -> steps_left g1 <= pred (steps_left g).
Proof.
  intros Hs. apply goroutine_step_Ret_cases in Hs
    as [(p & -> & -> & ->)|[(-> & -> & ->)|[(p & r & l & m & -> & _ & -> & ->)
       |[(p & r & -> & _ & -> & ->)|([->| ->] & -> & ->)]]]]; simpl; try lia.
  destruct (connectedness_eqb (Connectedness w (ID p)) Connected); simpl; lia.
Qed.

(** A step of goroutine [i] brings it closer to its end. *)
Lemma pool_step_progress c i pool (w : W) g pool1 w1 t :
  pool !! i = Some g ->
  returned (pool_step c i pool w) pool1 w1 t ->
  exists g1, pool1 !! i = Some g1 /\ steps_left g1 <= pred (steps_left g).
Proof.
  intros Hi E. apply pool_step_returned_inv in E
    as [(Hn & _)|(g0 & g1 & Hg & Es & ->)]; [congruence|].
  rewrite Hi in Hg. injection Hg as <-. exists g1. split.
  - apply list_lookup_insert_eq. eapply lookup_lt_Some; exact Hi.
  - eapply goroutine_step_progress; exact Es.
Qed.

(** A goroutine that has ended, by returning or by panicking, stays so. *)
Lemma pool_step_done_stable c i pool (w : W) j pool1 w1 t :
  ended_at pool j ->
  returned (pool_step c i pool w) pool1 w1 t ->
  ended_at pool1 j.
Proof.
  intros (g & Hj & Hg) E. destruct (Nat.eq_dec i j) as [->|Hne].
  - destruct (pool_step_progress c j pool w g pool1 w1 t Hj E) as (g1 & Hg1 & Hs).
    exists g1. split; [exact Hg1|lia].
  - apply pool_step_returned_inv in E as [(_ & -> & _ & _)|(g0 & g1 & _ & _ & ->)].
    + now exists g.
    + exists g. now rewrite list_lookup_insert_ne.
Qed.

Lemma run_drain c m : forall a pool (w : W) pool1 w1 t,
  (forall j, j < a -> j < length pool -> ended_at pool j) ->
  returned (run_schedule c (flat_map (fun i => [i; i]) (seq a m)) pool w) pool1 w1 t ->
  length pool1 = length pool /\
  (forall j, j < a + m -> j < length pool -> ended_at pool1 j).
Proof.
  induction m as [|m IH]; intros a pool w pool1 w1 t Hdone E.
  - apply returned_Ret_inv in E as (-> & _ & _). split; [reflexivity|].
    intros j Hj. apply Hdone. lia.
  - cbn [seq flat_map app run_schedule] in E.
    apply bind_returned_inv in E as (p1 & w2 & ? & ? & E1 & E & _).
    apply bind_returned_inv in E as (p2 & w3 & ? & ? & E2 & E & _).
    pose proof (pool_step_length _ _ _ _ _ _ _ E1) as L1.
    pose proof (pool_step_length _ _ _ _ _ _ _ E2) as L2.
    assert (Hdone2 : forall j, j < S a -> j < length p2 -> ended_at p2 j).
    { intros j Hj Hlen. destruct (Nat.eq_dec j a) as [->|Hne].
      * destruct (lookup_lt_is_Some_2 pool a) as [g Hg]; [lia|].
        destruct (pool_step_progress _ _ _ _ _ _ _ _ Hg E1) as (g1 & Hg1 & Hs1).
        destruct (pool_step_progress _ _ _ _ _ _ _ _ Hg1 E2) as (g2 & Hg2 & Hs2).
        exists g2. split; [exact Hg2|]. destruct g, g1; simpl in *; lia.
      * eapply pool_step_done_stable; [|exact E2].
        eapply pool_step_done_stable; [|exact E1]. apply Hdone; lia. }
    destruct (IH (S a) p2 w3 pool1 w1 _ Hdone2 E) as [L3 H3].
    split; [lia|]. intros j Hj Hlen. apply H3; lia.
Qed.

(** When [wg.Wait()] returns, every goroutine of the pass has ended, by
    returning or by panicking. *)
Lemma wg_Wait_all_done c pool (w : W) pool1 w1 t :
  returned (wg_Wait c pool w) pool1 w1 t ->
  length pool1 = length pool /\ Forall (fun g => steps_left g = 0) pool1.
Proof.
  unfold wg_Wait, drain_order. intros E.
  destruct (run_drain c (length pool) 0 pool w pool1 w1 t) as [L H]; [lia|exact E|].
  split; [exact L|]. apply Forall_lookup. intros j g Hg.
  assert (Hlt : j < length pool1) by (eapply lookup_lt_Some; exact Hg).
  destruct (H j) as (g' & Hg' & Hs); [lia|lia|]. congruence.
Qed.

(** * Further properties of the code *)

(** ** The bootstrap pass does each thing once *)

Lemma list_sum_insert (f : goroutine -> nat) g1 : forall pool i g,
  pool !! i = Some g ->
  list_sum (map f (<[i := g1]> pool)) + f g = list_sum (map f pool) + f g1.
Proof.
  induction pool as [|g0 pool IH]; intros [|i] g Hl; try discriminate.
  - injection Hl as ->. simpl. lia.
  - simpl in *. specialize (IH i g Hl). lia.
Qed.

Section Accounting.

(** A count [f] on goroutines and two counts [m1], [m2] on traces that
    every step of a goroutine keeps in balance. *)
Variable f : goroutine -> nat.
Variables m1 m2 : list event -> nat.
Hypothesis m1_app : forall t1 t2, m1 (t1 ++ t2) = m1 t1 + m1 t2.
Hypothesis m2_app : forall t1 t2, m2 (t1 ++ t2) = m2 t1 + m2 t2.
Hypothesis step_balance : forall c g (w : W) g1 w1 t,
  goroutine_step c g w = Ret g1 w1 t -> m1 t + f g1 = f g + m2 t.

Lemma m1_nil : m1 [] = 0.
Proof. pose proof (m1_app [] []) as H. simpl in H. lia. Qed.

Lemma m2_nil : m2 [] = 0.
Proof. pose proof (m2_app [] []) as H. simpl in H. lia. Qed.

Lemma pool_step_account c i pool (w : W) pool1 w1 t :
  returned (pool_step c i pool w) pool1 w1 t ->
  m1 t + list_sum (map f pool1) = list_sum (map f pool) + m2 t.
Proof.
  intros E. apply pool_step_returned_inv in E
    as [(_ & -> & _ & ->)|(g & g1 & Hi & E1 & ->)].
  - rewrite m1_nil, m2_nil. lia.
  - pose proof (step_balance _ _ _ _ _ _ E1) as Hs.
    pose proof (list_sum_insert f g1 pool i g Hi) as Hp. lia.
Qed.

Lemma run_schedule_account c sched : forall pool (w : W) pool1 w1 t,
  returned (run_schedule c sched pool w) pool1 w1 t ->
  m1 t + list_sum (map f pool1) = list_sum (map f pool) + m2 t.
Proof.
  induction sched as [|i rest IH]; intros pool w pool1 w1 t E; simpl in E.
  - apply returned_Ret_inv in E as (-> & _ & ->). rewrite m1_nil, m2_nil. lia.
  - apply bind_returned_inv in E as (p1 & w2 & t1 & t2 & E1 & E2 & ->).
    apply pool_step_account in E1. apply IH in E2.
    rewrite m1_app, m2_app. lia.
Qed.

(** Over a whole pass that returns, the goroutines start with nothing
    done and have all ended. *)
Lemma bootstrapPeers_account sched c d (w : W) w1 t :
  (forall g, steps_left g = 0 -> f g = 0) ->
  returned (bootstrapPeers sched c d w) tt w1 t ->
  m1 t = list_sum (map f (spawn_all (BootstrapPeers d))) + m2 t.
Proof.
  intros Hdone E. unfold bootstrapPeers in E.
  apply bind_returned_inv in E as (p1 & w2 & t1 & t2 & E1 & E & ->).
  apply bind_returned_inv in E as (p2 & w3 & t3 & t4 & E2 & E & ->).
  apply returned_Ret_inv in E as (_ & _ & ->). rewrite app_nil_r.
  pose proof (wg_Wait_all_done _ _ _ _ _ _ E2) as [_ Hall].
  apply run_schedule_account in E1. unfold wg_Wait in E2.
  apply run_schedule_account in E2.
  assert (Hz : list_sum (map f p2) = 0).
  { clear -Hall Hdone. induction Hall as [|g p Hg _ IH]; [reflexivity|].
    simpl. now rewrite (Hdone g Hg), IH. }
  rewrite m1_app, m2_app. lia.
Qed.

End Accounting.

Lemma checks_app id t1 t2 : checks id (t1 ++ t2) = checks id t1 + checks id t2.
Proof. unfold checks. now rewrite List.filter_app, length_app. Qed.

Lemma checked_ids_length_app t1 t2 :
  length (checked_ids (t1 ++ t2)) = length (checked_ids t1) + length (checked_ids t2).
Proof. now rewrite checked_ids_app, length_app. Qed.

Lemma spawn_all_awaits id peers :
  list_sum (map (awaits id) (spawn_all peers)) = length (List.filter (parses_to id) peers).
Proof.
  unfold spawn_all, parses_to. induction peers as [|a peers IH]; [reflexivity|].
  simpl. rewrite IH. destruct (AddrInfoFromP2pAddr a) as [p|]; simpl; [|reflexivity].
  now destruct (String.eqb (ID p) id).
Qed.

Lemma spawn_all_unstarted peers :
  list_sum (map unstarted (spawn_all peers)) = length (List.filter parsable peers).
Proof.
  unfold spawn_all, parsable. induction peers as [|a peers IH]; [reflexivity|].
  simpl. rewrite IH. now destruct (AddrInfoFromP2pAddr a).
Qed.

Lemma spawn_all_owes id peers : list_sum (map (owes id) (spawn_all peers)) = 0.
Proof. unfold spawn_all. induction peers; simpl; auto. Qed.

Lemma step_unstarted c g (w : W) g1 w1 t :
  goroutine_step c g w = Ret g1 w1 t ->
  length (checked_ids t) + unstarted g1 = unstarted g + 0.
Proof.
  intros Hs. apply goroutine_step_Ret_cases in Hs
    as [(p & -> & -> & ->)|[(-> & -> & ->)|[(p & r & l & m & -> & _ & -> & ->)
       |[(p & r & -> & _ & -> & ->)|([->| ->] & -> & ->)]]]];
    simpl; try reflexivity.
  now destruct (connectedness_eqb (Connectedness w (ID p)) Connected).
Qed.

Lemma step_awaits id c g (w : W) g1 w1 t :
  goroutine_step c g w = Ret g1 w1 t ->
  checks id t + awaits id g1 = awaits id g + 0.
Proof.
  intros Hs. apply goroutine_step_Ret_cases in Hs
    as [(p & -> & -> & ->)|[(-> & -> & ->)|[(p & r & l & m & -> & _ & -> & ->)
       |[(p & r & -> & _ & -> & ->)|([->| ->] & -> & ->)]]]];
    unfold checks; simpl; try reflexivity.
  destruct (String.eqb (ID p) id);
    now destruct (connectedness_eqb (Connectedness w (ID p)) Connected).
Qed.

Lemma ended_unstarted g : steps_left g = 0 -> unstarted g = 0.
Proof. destruct g as [[p|]|p| |]; simpl; auto; discriminate. Qed.

Lemma ended_awaits id g : steps_left g = 0 -> awaits id g = 0.
Proof. destruct g as [[p|]|p| |]; simpl; auto; discriminate. Qed.

Lemma ended_owes id g : steps_left g = 0 -> owes id g = 0.
Proof. destruct g as [[p|]|p| |]; simpl; auto; discriminate. Qed.

(** X1.  A bootstrap pass that comes back to [connect], whether all its
    goroutines returned or [wg.Wait()] was released by the deferred
    [wg.Done()] of one that panicked, has under whatever interleaving
    asked for the connectedness of the peer of each entry that parses
    exactly once, and of no other, and has dialled a peer exactly as often
    as it was reported not connected: by the time [wg.Wait()] lets the
    pass come back, no dial that a goroutine was cleared for is left
    undone.  An entry that does not parse is never asked about. *)
Theorem bootstrapPeers_each_entry_once sched c d (w : W) w1 t :
  returned (bootstrapPeers sched c d w) tt w1 t ->
  length (checked_ids t) = length (List.filter parsable (BootstrapPeers d)) /\
  forall id,
    checks id t = length (List.filter (parses_to id) (BootstrapPeers d)) /\
    dials id t = clearances id t.
Proof.
  intros E. split; [|intros id; split].
  - pose proof (bootstrapPeers_account unstarted (fun t0 => length (checked_ids t0))
                  (fun _ => 0) checked_ids_length_app (fun _ _ => eq_refl)
                  step_unstarted sched c d w w1 t ended_unstarted E) as H.
    simpl in H. rewrite spawn_all_unstarted in H. lia.
  - pose proof (bootstrapPeers_account (awaits id) (checks id) (fun _ => 0)
                  (checks_app id) (fun _ _ => eq_refl)
                  (step_awaits id) sched c d w w1 t (ended_awaits id) E) as H.
    simpl in H. rewrite spawn_all_awaits in H. lia.
  - pose proof (bootstrapPeers_account (owes id) (dials id) (clearances id)
                  (dials_app id) (clearances_app id)
                  (step_owes id) sched c d w w1 t (ended_owes id) E) as H.
    now rewrite spawn_all_owes in H.
Qed.

(** ** When a goroutine of the bootstrap pass panics *)

Lemma bootstrapPeers_nil_panics sched c d (w : W) a :
  In a (BootstrapPeers d) -> AddrInfoFromP2pAddr a = None ->
  panicked (bootstrapPeers sched c d w) = true.
Proof.
  intros Hin Hbad. apply In_lookup in Hin as [i Hi].
  pose proof (spawn_all_lookup _ _ _ Hi) as Hg. rewrite Hbad in Hg.
  unfold bootstrapPeers. rewrite panicked_bind.
  destruct (run_schedule c sched (spawn_all (BootstrapPeers d)) w)
    as [pool w1 t1|t1|pool w1 t1 n] eqn:E; try reflexivity.
  pose proof (run_schedule_keeps_nil _ _ _ _ _ _ _ _ Hg E) as Hi1.
  assert (Hlt : i < length pool) by (eapply lookup_lt_Some; exact Hi1).
  pose proof (run_schedule_nil_panics c (drain_order (length pool)) pool w1 i Hi1
                (In_drain_order _ _ Hlt)) as Hp.
  rewrite panicked_bind. unfold wg_Wait.
  now destruct (run_schedule c (drain_order (length pool)) pool w1).
Qed.

(** X2.  Called with a logger, the bootstrap pass ends with no goroutine
    having panicked exactly when every entry of [BootstrapPeers] parses to
    a peer, and this does not depend on the interleaving of its
    goroutines: dial failures never make one panic, an entry without a
    peer identity always does.  When no goroutine panics the pass returns.
    When one does, the pass may still come back to its caller before the
    process exits, its [wg.Wait()] released by the deferred [wg.Done()]:
    then it comes back in a process that is going down. *)
Theorem bootstrapPeers_panics_iff sched l d (w : W) :
  (panicked (bootstrapPeers sched (Some l) d w) = false <->
   all_parse (BootstrapPeers d)) /\
  (all_parse (BootstrapPeers d) ->
   exists w1 t, bootstrapPeers sched (Some l) d w = Ret tt w1 t) /\
  (~ all_parse (BootstrapPeers d) ->
   forall w1 t, returned (bootstrapPeers sched (Some l) d w) tt w1 t ->
     exists n, bootstrapPeers sched (Some l) d w = Dying tt w1 t n).
Proof.
  assert (Hbad : panicked (bootstrapPeers sched (Some l) d w) = false ->
                 all_parse (BootstrapPeers d)).
  { intros Hp a Hin Hnone.
    pose proof (bootstrapPeers_nil_panics sched (Some l) d w a Hin Hnone) as Hq.
    rewrite Hq in Hp. discriminate Hp. }
  split; [split; [exact Hbad|]|split].
  - intros Hall. destruct (bootstrapPeers_returns sched l d w Hall) as (w1 & t & E).
    now rewrite E.
  - apply bootstrapPeers_returns.
  - intros Hnot w1 t [E|[n E]]; [|now exists n].
    exfalso. apply Hnot, Hbad. now rewrite E.
Qed.

(** ** The announce pass dials whom it finds not connected *)

Lemma announce_peer_exact d l p (w : W) w1 t :
  console d = Some l ->
  announce_peer d p w = Ret tt w1 t ->
  forall id, dials id t = clearances id t.
Proof.
  intros Hc. unfold announce_peer.
  destruct (String.eqb (ID p) host_ID || Nat.eqb (length (Addrs p)) 0).
  - now intros [= _ <-].
  - rewrite Hc. unfold bind, call_Connectedness, call_Connect. simpl.
    destruct (connectedness_eqb (Connectedness w (ID p)) Connected) eqn:Hs; simpl.
    + intros [= _ <-] id. unfold dials, clearances. simpl. rewrite Hs.
      now rewrite andb_false_r.
    + destruct (Connect w p) as [[e|] w2]; simpl; intros [= _ <-] id;
        unfold dials, clearances; simpl; rewrite Hs, andb_true_r;
        now destruct (String.eqb (ID p) id).
Qed.

Lemma range_peerChan_exact d l peers : forall (w : W) w1 t,
  console d = Some l ->
  range_peerChan d peers w = Ret tt w1 t ->
  forall id, dials id t = clearances id t.
Proof.
  induction peers as [|p rest IH]; intros w w1 t Hc E id; simpl in E.
  - now injection E as _ <-.
  - apply bind_Ret_inv in E as ([] & w2 & t1 & t2 & E1 & E2 & ->).
    rewrite dials_app, clearances_app.
    rewrite (announce_peer_exact d l p w w2 t1 Hc E1 id).
    now rewrite (IH w2 w1 t2 Hc E2 id).
Qed.

(** X3.  An announce pass that returns has dialled each peer exactly as
    often as it found it not connected, so every discovered peer that is
    eligible and not connected gets its dial, whatever the dials before it
    gave; and a pass whose lookup failed has asked about no peer and
    dialled none. *)
Theorem announceAndConnect_dials_exactly d k rv (w : W) r w1 t :
  announceAndConnect d k rv w = Ret r w1 t ->
  (forall id, dials id t = clearances id t) /\
  (r <> None -> checked_ids t = [] /\ forall id, dials id t = 0).
Proof.
  destruct (console d) as [l|] eqn:Hc.
  - rewrite (announceAndConnect_unfold d l k rv w Hc).
    destruct (FindPeers (Advertise w k rv) k rv) as [[err|peerChan] w2]; simpl.
    + intros [= <- _ <-]. split; [|intros _; split]; reflexivity.
    + destruct (range_peerChan d peerChan w2) as [[] w3 t3|t3|[] w3 t3 n] eqn:E;
        [|discriminate|discriminate].
      intros [= <- _ <-]. split; [|intros H; now contradiction H].
      intros id. pose proof (range_peerChan_exact d l peerChan w2 w3 t3 Hc E id) as H.
      unfold dials, clearances in *. simpl. exact H.
  - unfold announceAndConnect. rewrite Hc. discriminate.
Qed.

(** ** A session that keeps running *)

Lemma Run_defaults_BootstrapPeers c d :
  BootstrapPeers (Run_defaults c d) =
  if length (BootstrapPeers d) =? 0 then DefaultBootstrapPeers else BootstrapPeers d.
Proof.
  unfold Run_defaults. destruct (Z.eqb (KeyLength d) 0); simpl;
    now destruct (length (BootstrapPeers d) =? 0).
Qed.

Lemma Run_defaults_config c d :
  same_config d (Run_defaults c d) /\
  KeyLength (Run_defaults c d) = (if Z.eqb (KeyLength d) 0 then 12%Z else KeyLength d).
Proof.
  unfold Run_defaults, same_config.
  destruct (Z.eqb (KeyLength d) 0); simpl;
    destruct (length (BootstrapPeers d) =? 0); simpl; auto 10.
Qed.

Lemma Run_returns l d (w : W) :
  exists r d1 w1 t, Run (Some l) d w = Ret (r, d1) w1 t.
Proof.
  unfold Run.
  destruct (startDHT_returns (Run_defaults (Some l) d) w)
    as (h & err & d1 & w1 & t1 & ES & Hh).
  rewrite (bind_Ret _ _ _ _ _ _ ES). destruct err as [e0|].
  - simpl. now eexists _, _, _, _.
  - destruct (Hh eq_refl) as (k & -> & _).
    unfold bind, Info, deref, call_Bootstrap. simpl.
    destruct (dht_Bootstrap w1 k) as [[e1|] w2]; simpl; now eexists _, _, _, _.
Qed.

Lemma cycle_ev_timer_count d t : Forall (cycle_ev d) t -> timer_count t = 0.
Proof.
  induction 1 as [|e t He _ IH]; [reflexivity|].
  unfold timer_count in *. simpl. destruct e; simpl in *; try contradiction; exact IH.
Qed.

Lemma connect_timer_count sched c k d (w : W) d1 w1 t :
  connect sched c k d w = Ret d1 w1 t -> timer_count t = 0.
Proof.
  intros E. apply (cycle_ev_timer_count d).
  pose proof (connect_events sched c k d w) as H. now rewrite E in H.
Qed.

(** A session whose logger is set, whose bootstrap addresses all parse
    and whose TOTP generator does not panic: every cycle from it returns. *)
Lemma connect_returns sched l l1 k d (w : W) :
  console d = Some l -> all_parse (BootstrapPeers d) -> totp_safe d ->
  exists d1 w1 t, connect sched (Some l1) k d w = Ret d1 w1 t.
Proof.
  intros Hc Hp Hs. unfold connect. fold (announce_steps k d).
  destruct (bootstrapPeers_returns sched l1 d w Hp) as (w1 & tb & EB).
  rewrite (bind_Ret _ _ _ _ _ _ EB).
  destruct (announce_steps_cases k d l w1 Hc)
    as (w2 & tp & _ & [(Hk & Hpan & _)|(rv & d1 & tr & r & w3 & tc & _ & _ & ES & _)]).
  - destruct Hs as [Hs|Hs]; [contradiction|]. rewrite Hs in Hpan. discriminate Hpan.
  - rewrite ES. now eexists _, _, _.
Qed.

Lemma session_step_live d d1 l :
  session_step d d1 ->
  console d = Some l /\ all_parse (BootstrapPeers d) /\ totp_safe d ->
  console d1 = Some l /\ all_parse (BootstrapPeers d1) /\ totp_safe d1.
Proof. now intros [->|(rv & _ & ->)]. Qed.

Lemma refresh_loop_returns sch l l1 k sels : forall n d (w : W),
  console d = Some l -> all_parse (BootstrapPeers d) -> totp_safe d ->
  exists st d1 w1 t,
    refresh_loop sch n sels (Some l1) k d w = Ret (st, d1) w1 t /\
    st = (if cancelled sels then Stopped else Waiting) /\
    timer_count t = S (leading_timers sels).
Proof.
  induction sels as [|[|] sels IH]; intros n d w Hc Hp Hs.
  - now eexists _, _, _, _.
  - now eexists _, _, _, _.
  - destruct (connect_returns (sch n) l l1 k d w Hc Hp Hs) as (d1 & w1 & tc & EC).
    pose proof (connect_timer_count _ _ _ _ _ _ _ _ EC) as Htc.
    destruct (session_step_live d d1 l
                (connect_session _ _ _ _ _ _ _ _ (or_introl EC))
                (conj Hc (conj Hp Hs)))
      as (Hc1 & Hp1 & Hs1).
    destruct (IH (S n) d1 w1 Hc1 Hp1 Hs1) as (st & d2 & w2 & tl & EL & Hst & Htl).
    cbn [refresh_loop]. unfold bind at 1. cbn [emit].
    rewrite (bind_Ret _ _ _ _ _ _ EC), EL.
    eexists _, _, _, _. split; [reflexivity|]. split; [exact Hst|].
    change (timer_count ([EvNewTimer (RefreshDiscoveryTime d)] ++ tc ++ tl)
            = S (S (leading_timers sels))).
    rewrite !timer_count_app, Htc, Htl. reflexivity.
Qed.

(** X4.  Started with a logger, on bootstrap addresses that all parse
    (the configured ones, or the substrate's default ones when none is
    configured), and in static mode or with a key, an interval and a
    length on which the TOTP generator does not panic (the length being 12
    when none is configured), a session never panics, whatever the
    interleavings: no failed dial and no failed lookup stops it.  Either
    [Run] returns an error and no goroutine runs; or the loop runs one
    cycle at once and one more after each timer that fires, arming a timer
    after each, until it sees the cancellation ([Stopped]) or the
    observation ends ([Waiting]). *)
Theorem Run_session_keeps_running sch sels l d (w : W) :
  all_parse (if length (BootstrapPeers d) =? 0
             then DefaultBootstrapPeers else BootstrapPeers d) ->
  (OTPKey d = EmptyString \/
   forall w0 : W,
     totp_panics w0 (OTPKey d) (if Z.eqb (KeyLength d) 0 then 12%Z else KeyLength d)
       (OTPInterval d) = false) ->
  exists err st d1 w1 t,
    Run_session sch sels (Some l) d w = Ret (err, st, d1) w1 t /\
    (err <> None -> st = None) /\
    (err = None ->
     st = Some (if cancelled sels then Stopped else Waiting) /\
     timer_count t = S (leading_timers sels)).
Proof.
  intros Hp Hs. unfold Run_session.
  destruct (Run_returns l d w) as (r & d1 & w1 & t1 & ER).
  rewrite (bind_Ret _ _ _ _ _ _ ER). simpl.
  destruct r as [e|k].
  - simpl. eexists _, _, _, _, _. split; [reflexivity|]. split; [reflexivity|discriminate].
  - pose proof (Run_events (Some l) d w) as Hev. rewrite ER in Hev. simpl in Hev.
    apply startup_counts in Hev as [_ Ht1].
    assert (Hlive : console d1 = Some l /\ all_parse (BootstrapPeers d1) /\ totp_safe d1).
    { destruct (Run_defaults_fields (Some l) d) as (Hk & _ & _ & Hc).
      pose proof (Run_defaults_BootstrapPeers (Some l) d) as Hb.
      destruct (Run_defaults_config (Some l) d) as [(_ & Hi & _) Hlen].
      assert (Hp0 : all_parse (BootstrapPeers (Run_defaults (Some l) d))).
      { now rewrite Hb. }
      assert (Hs0 : totp_safe (Run_defaults (Some l) d)).
      { unfold totp_safe. rewrite Hk, Hi, Hlen. exact Hs. }
      apply Run_session_state in ER as [->|[kad ->]]; now repeat split. }
    destruct Hlive as (Hc & Hp1 & Hs1).
    destruct (connect_returns (sch 0) l l k d1 w1 Hc Hp1 Hs1) as (d2 & w2 & tc & EC).
    pose proof (connect_timer_count _ _ _ _ _ _ _ _ EC) as Htc.
    destruct (session_step_live d1 d2 l
                (connect_session _ _ _ _ _ _ _ _ (or_introl EC))
                (conj Hc (conj Hp1 Hs1)))
      as (Hc2 & Hp2 & Hs2).
    destruct (refresh_loop_returns sch l l k sels 1 d2 w2 Hc2 Hp2 Hs2)
      as (st & d3 & w3 & tl & EL & Hst & Htl).
    assert (EG : refresh_goroutine sch sels (Some l) k d1 w1 = Ret (st, d3) w3 (tc ++ tl)).
    { unfold refresh_goroutine. now rewrite (bind_Ret _ _ _ _ _ _ EC), EL. }
    rewrite (bind_Ret _ _ _ _ _ _ EG). simpl.
    eexists _, _, _, _, _. split; [reflexivity|].
    split; [intros H; now contradiction H|]. intros _. split; [now rewrite Hst|].
    rewrite !timer_count_app, Ht1, Htc, Htl. unfold timer_count. simpl. lia.
Qed.

(** ** What a lifetime leaves alone *)

(** X5.  Over a whole lifetime the session's configuration is never
    assigned: [OTPKey], [OTPInterval], [RendezvousString],
    [RefreshDiscoveryTime] and the DHT options end as they began, so a
    session stays in the mode, rotating or static, it was started in.
    [console] is the logger [Run] was given; [KeyLength] is the
    configured one, or 12 when it was zero; [BootstrapPeers] is the
    configured list, or the substrate's default list when it was empty. *)
Theorem session_configuration_kept sch sels c d (w : W) err st d1 w1 t :
  Run_session sch sels c d w = Ret (err, st, d1) w1 t ->
  same_config d d1 /\ console d1 = c /\
  KeyLength d1 = (if Z.eqb (KeyLength d) 0 then 12%Z else KeyLength d) /\
  BootstrapPeers d1 = (if length (BootstrapPeers d) =? 0
                       then DefaultBootstrapPeers else BootstrapPeers d).
Proof.
  intros E.
  destruct (Run_defaults_config c d) as [Hcfg HK].
  destruct (Run_defaults_fields c d) as (_ & _ & _ & Hc).
  pose proof (Run_defaults_BootstrapPeers c d) as HB.
  refine (proj2 (Run_session_invariant
           (fun d0 => same_config d d0 /\ console d0 = c /\
                      KeyLength d0 = (if Z.eqb (KeyLength d) 0 then 12%Z else KeyLength d) /\
                      BootstrapPeers d0 = (if length (BootstrapPeers d) =? 0
                                           then DefaultBootstrapPeers
                                           else BootstrapPeers d))
           (fun _ => True) _ _ _ _ _ _ sch sels c d w _) err st d1 w1 t E); auto.
  intros d0 d2 H [->|(rv & _ & ->)]; exact H.
Qed.

(** X6.  Every call to the TOTP generator that gives a value in a
    lifetime, under whatever interleaving and whether or not the run
    panics later, is made with the
    configured secret and interval, and with the configured number of
    digits, or 12 when [KeyLength] was zero: a non-zero [KeyLength] is
    never overridden. *)
Theorem totp_called_as_configured sch sels c d (w : W) :
  Forall (totp_args_ev (OTPKey d)
            (if Z.eqb (KeyLength d) 0 then 12%Z else KeyLength d) (OTPInterval d))
         (trace_of (Run_session sch sels c d w)).
Proof.
  destruct (Run_defaults_config c d) as [(Hk & Hi & _) HK].
  refine (proj1 (Run_session_invariant
           (fun d0 => OTPKey d0 = OTPKey d /\ OTPInterval d0 = OTPInterval d /\
                      KeyLength d0 = (if Z.eqb (KeyLength d) 0 then 12%Z else KeyLength d))
           _ _ _ _ _ _ _ sch sels c d w _)); auto.
  - intros d0 d2 H [->|(rv & _ & ->)]; exact H.
  - intros d0 e (Hk0 & Hi0 & Hl0) He. destruct e; simpl in *; try exact I.
    destruct He as (-> & -> & -> & _). auto.
  - intros; exact I.
  - exact I.
  - intros e He. now destruct e.
Qed.

(** ** A startup that fails *)

(** X7.  When [Run] returns an error, no goroutine has been spawned and
    nothing but the startup calls has happened: no peer was asked about or
    dialled, nothing was advertised or looked up, no timer was armed. *)
Theorem failed_startup_does_nothing_else sch sels c d (w : W) e st d1 w1 t :
  Run_session sch sels c d w = Ret (Some e, st, d1) w1 t ->
  st = None /\ Forall startup_ev t /\
  checked_ids t = [] /\ advertise_count t = 0 /\ timer_count t = 0 /\
  forall id, dials id t = 0.
Proof.
  unfold Run_session. intros E.
  apply bind_Ret_inv in E as ([r d2] & w2 & t1 & t2 & ER & E & ->). simpl in E.
  destruct r as [e0|k].
  - injection E as _ <- _ _ <-. rewrite app_nil_r.
    pose proof (Run_events c d w) as Hev. rewrite ER in Hev. simpl in Hev.
    destruct (startup_counts t1 Hev) as [Ha Ht].
    split; [reflexivity|]. split; [exact Hev|].
    assert (Hq : checked_ids t1 = [] /\ forall id, dials id t1 = 0).
    { clear -Hev. induction Hev as [|ev t0 He _ [IH1 IH2]]; [now split|].
      unfold checked_ids, dials in *. simpl.
      destruct ev; simpl in *; try contradiction; split; auto. }
    destruct Hq as [Hq1 Hq2]. auto.
  - apply bind_Ret_inv in E as (? & ? & ? & ? & _ & E & _). discriminate E.
Qed.

(** ** One routing handle *)

Lemma dial_only_handle h opts e : dial_only e -> handle_ev h opts e.
Proof. now destruct e. Qed.

Lemma announceAndConnect_handle d k rv opts (w : W) :
  Forall (handle_ev (Some k) opts) (trace_of (announceAndConnect d k rv w)).
Proof.
  unfold announceAndConnect.
  repeat (apply Forall_trace_bind;
          [ unfold Debug, deref, bind, call_Advertise, call_FindPeers;
            destruct (console d); simpl;
            try destruct (FindPeers _ _ _) as [? ?]; simpl; repeat constructor
          | intros ]).
  match goal with |- context [match ?r with inl _ => _ | inr _ => _ end] => destruct r end.
  - constructor.
  - apply Forall_trace_bind; [|intros; constructor].
    eapply List.Forall_impl; [|apply range_peerChan_dial_only].
    apply dial_only_handle.
Qed.

Lemma connect_handle sched c k d opts (w : W) :
  Forall (handle_ev (Some k) opts) (trace_of (connect sched c k d w)).
Proof.
  unfold connect. apply Forall_trace_bind.
  { eapply List.Forall_impl; [|apply bootstrapPeers_dial_only]. apply dial_only_handle. }
  intros _ w1 _ _. apply Forall_trace_bind.
  { destruct (String.eqb (latestRendezvous d) EmptyString); [constructor|]. simpl.
    apply Forall_trace_bind; [apply announceAndConnect_handle|intros; constructor]. }
  intros _ w2 _ _. apply Forall_trace_bind.
  { destruct (Rendezvous_cases d w2) as [[Hk ER]|[(rv & Hrv & _ & ER)|(_ & _ & ER)]];
      rewrite ER; repeat constructor. }
  intros r w3 t3 _. apply Forall_trace_bind;
    [apply announceAndConnect_handle|intros; constructor].
Qed.

Lemma refresh_loop_handle sch c k opts sels : forall n d (w : W),
  Forall (handle_ev (Some k) opts) (trace_of (refresh_loop sch n sels c k d w)).
Proof.
  induction sels as [|[|] sels IH]; intros n d w; try (repeat constructor).
  cbn [refresh_loop]. apply Forall_trace_bind; [repeat constructor|].
  intros _ w1 _ _. apply Forall_trace_bind; [apply connect_handle|].
  intros; apply IH.
Qed.

Lemma cycle_ev_no_startup d e : cycle_ev d e -> no_startup_ev e.
Proof. now destruct e. Qed.

Lemma no_startup_new_count t : Forall no_startup_ev t -> new_count t = 0.
Proof.
  induction 1 as [|e t He _ IH]; [reflexivity|].
  unfold new_count in *. simpl. destruct e; simpl in *; try contradiction; exact IH.
Qed.

(** The goroutine keeps the [dht] field and calls neither [dht.New] nor
    [Bootstrap]. *)
Lemma refresh_goroutine_dht sch sels c k d (w : W) :
  Forall no_startup_ev (trace_of (refresh_goroutine sch sels c k d w)) /\
  (forall st d1 w1 t,
     refresh_goroutine sch sels c k d w = Ret (st, d1) w1 t -> dht d1 = dht d).
Proof.
  assert (Hstep : forall d0 d1, dht d0 = dht d -> session_step d0 d1 -> dht d1 = dht d).
  { now intros d0 d1 H [->|(rv & _ & ->)]. }
  assert (Hcyc : forall d0 e, dht d0 = dht d -> cycle_ev d0 e -> no_startup_ev e).
  { intros d0 e _. apply cycle_ev_no_startup. }
  unfold refresh_goroutine.
  destruct (connect_invariant (fun d0 => dht d0 = dht d) no_startup_ev Hstep Hcyc
              (sch 0) c k d w eq_refl) as [HP HI].
  split.
  - apply Forall_trace_bind; [exact HP|]. intros d1 w1 t1 E.
    apply (refresh_loop_invariant (fun d0 => dht d0 = dht d) no_startup_ev Hstep Hcyc
             (fun _ => I) I). eapply HI; exact E.
  - intros st d1 w1 t E.
    apply bind_Ret_inv in E as (d2 & w2 & ? & ? & EC & EL & _).
    destruct (refresh_loop_invariant (fun d0 => dht d0 = dht d) no_startup_ev Hstep Hcyc
                (fun _ => I) I sch c k sels 1 d2 w2 (HI _ _ _ (or_introl EC)))
      as [_ H].
    eapply H. left. exact EL.
Qed.

Lemma Run_defaults_dht c d : dht (Run_defaults c d) = dht d.
Proof.
  unfold Run_defaults. destruct (Z.eqb (KeyLength d) 0); simpl;
    now destruct (length (BootstrapPeers d) =? 0).
Qed.

(** What [Run] itself does with the handle. *)
Lemma Run_handle c d (w : W) r d1 w1 t :
  Run c d w = Ret (r, d1) w1 t ->
  Forall (handle_ev (dht d1) (dhtOptions d)) t /\
  new_count t <= 1 /\
  (forall k, r = RunSpawned k -> dht d1 = Some k) /\
  (forall k0, dht d = Some k0 -> new_count t = 0 /\ dht d1 = Some k0).
Proof.
  destruct (Run_defaults_config c d) as [(_ & _ & _ & _ & Hopts) _].
  pose proof (Run_defaults_dht c d) as Hdht.
  unfold Run. intros E.
  apply bind_Ret_inv in E as ([[h err] d2] & w2 & t1 & t2 & ES & E & ->).
  destruct (dht (Run_defaults c d)) as [k0|] eqn:Hd0.
  - rewrite (startDHT_Some _ k0 w Hd0) in ES. injection ES as <- <- <- <- <-.
    destruct c as [l|]; [|discriminate E].
    unfold bind, Info, deref, call_Bootstrap in E. simpl in E.
    destruct (dht_Bootstrap w k0) as [[e|] w3]; injection E as <- <- _ <-;
      rewrite Hd0; simpl;
      (split; [repeat constructor|]); (split; [unfold new_count; simpl; lia|]);
      (split; [try discriminate; now intros k [= <-]|]);
      intros k1 Hk1; rewrite <- Hdht in Hk1; injection Hk1 as <-;
      now split.
  - rewrite (startDHT_None _ w Hd0) in ES. rewrite Hopts in ES.
    destruct (dht_New w (dhtOptions d)) as [[e|kad] w3]; injection ES as <- <- <- <- <-.
    + injection E as <- <- _ <-. rewrite Hd0. simpl.
      split; [repeat constructor|]. split; [unfold new_count; simpl; lia|].
      split; [discriminate|]. intros k1 Hk1. rewrite <- Hdht in Hk1. discriminate Hk1.
    + destruct c as [l|]; [|discriminate E].
      unfold bind, Info, deref, call_Bootstrap in E. simpl in E.
      destruct (dht_Bootstrap w3 kad) as [[e|] w4]; injection E as <- <- _ <-; simpl;
        (split; [repeat constructor|]); (split; [unfold new_count; simpl; lia|]);
        (split; [try discriminate; now intros k [= <-]|]);
        intros k1 Hk1; rewrite <- Hdht in Hk1; discriminate Hk1.
Qed.

(** X8.  In a lifetime that returns, [dht.New] is called at most once,
    with the session's options, and not at all when the session already
    holds a handle (as after libp2p called the [Option] constructor), which
    is then kept; and every [Bootstrap], [Advertise] and [FindPeers] of
    the lifetime goes through the one handle the session holds at the
    end. *)
Theorem one_handle_for_all sch sels c d (w : W) err st d1 w1 t :
  Run_session sch sels c d w = Ret (err, st, d1) w1 t ->
  Forall (handle_ev (dht d1) (dhtOptions d)) t /\
  new_count t <= 1 /\
  (forall k0, dht d = Some k0 -> new_count t = 0 /\ dht d1 = Some k0).
Proof.
  unfold Run_session. intros E.
  apply bind_Ret_inv in E as ([r d2] & w2 & t1 & t2 & ER & E & ->). simpl in E.
  destruct (Run_handle c d w r d2 w2 t1 ER) as (HF & Hn & Hk & H0).
  destruct r as [e|k].
  - injection E as _ _ <- _ <-. rewrite app_nil_r. auto.
  - apply bind_Ret_inv in E as ([st1 d3] & w3 & tg & t3 & EG & E & ->).
    injection E as _ _ <- _ <-. rewrite app_nil_r. simpl.
    destruct (refresh_goroutine_dht sch sels c k d2 w2) as [HN HD].
    rewrite EG in HN. simpl in HN. specialize (HD _ _ _ _ EG).
    pose proof (Hk k eq_refl) as Hdk.
    assert (Hg : Forall (handle_ev (Some k) (dhtOptions d)) tg).
    { unfold refresh_goroutine in EG.
      apply bind_Ret_inv in EG as (d4 & w4 & tc & tl & EC & EL & ->).
      apply Forall_app. split.
      - pose proof (connect_handle (sch 0) c k d2 (dhtOptions d) w2) as H.
        now rewrite EC in H.
      - pose proof (refresh_loop_handle sch c k (dhtOptions d) sels 1 d4 w4) as H.
        now rewrite EL in H. }
    rewrite HD. split; [|split].
    + apply Forall_app. split; [exact HF|]. now rewrite Hdk.
    + unfold new_count in *. rewrite List.filter_app, length_app.
      fold (new_count tg). rewrite (no_startup_new_count tg HN). lia.
    + intros k0 Hk0. destruct (H0 k0 Hk0) as [Hz Hd]. split; [|exact Hd].
      unfold new_count in *. rewrite List.filter_app, length_app.
      fold (new_count tg). rewrite (no_startup_new_count tg HN). lia.
Qed.

(** ** Rotating values from one cycle to the next *)

Lemma totp_values_app t1 t2 : totp_values (t1 ++ t2) = totp_values t1 ++ totp_values t2.
Proof. unfold totp_values. apply flat_map_app. Qed.

Lemma dial_only_totp_values t : Forall dial_only t -> totp_values t = [].
Proof.
  induction 1 as [|e t He _ IH]; [reflexivity|].
  unfold totp_values in *. simpl. rewrite IH. now destruct e.
Qed.

Lemma announce_ev_totp_values rv t : Forall (announce_ev rv) t -> totp_values t = [].
Proof.
  induction 1 as [|e t He _ IH]; [reflexivity|].
  unfold totp_values in *. simpl. rewrite IH. now destruct e.
Qed.

Lemma startup_totp_values t : Forall startup_ev t -> totp_values t = [].
Proof.
  induction 1 as [|e t He _ IH]; [reflexivity|].
  unfold totp_values in *. simpl. rewrite IH. now destruct e.
Qed.

Lemma announceAndConnect_Ret_totp d k rv (w : W) r w1 t :
  announceAndConnect d k rv w = Ret r w1 t -> totp_values t = [].
Proof.
  intros E. apply (announce_ev_totp_values rv).
  pose proof (announceAndConnect_events d k rv w) as H. now rewrite E in H.
Qed.

(** A cycle that returns: what it advertised, what the generator gave,
    and the session it leaves. *)
Lemma connect_Ret_inv sched c k d (w : W) d1 w1 t :
  connect sched c k d w = Ret d1 w1 t ->
  exists rv,
    advertised t =
    (if String.eqb (latestRendezvous d) EmptyString then []
     else [latestRendezvous d]) ++ [rv] /\
    ((OTPKey d = EmptyString /\ rv = RendezvousString d /\ d1 = d /\
      totp_values t = []) \/
     (rotating_value d rv /\ d1 = set_latestRendezvous rv d /\
      totp_values t = [rv])).
Proof.
  unfold connect. intros E.
  apply bind_Ret_inv in E as ([] & w2 & tb & t2 & EB & E & ->).
  apply bind_Ret_inv in E as ([] & w3 & tp & t3 & EP & E & ->).
  apply bind_Ret_inv in E as (r & w4 & tr & t4 & ER & E & ->).
  apply bind_Ret_inv in E as (r1 & w5 & ta & t5 & EA & E & ->).
  injection E as <- _ <-. rewrite app_nil_r.
  pose proof (bootstrapPeers_dial_only sched c d w) as Hd. rewrite EB in Hd. simpl in Hd.
  assert (Hp : advertised tp =
               (if String.eqb (latestRendezvous d) EmptyString then []
                else [latestRendezvous d]) /\ totp_values tp = []).
  { destruct (String.eqb (latestRendezvous d) EmptyString); simpl in EP.
    - now injection EP as _ <-.
    - apply bind_Ret_inv in EP as (r0 & w6 & t6 & t7 & EP1 & EP2 & ->).
      injection EP2 as _ <-. rewrite app_nil_r.
      split; [now apply announceAndConnect_Ret_inv in EP1|].
      now apply announceAndConnect_Ret_totp in EP1. }
  destruct Hp as [Hpa Hpt].
  pose proof (announceAndConnect_Ret_totp _ _ _ _ _ _ _ EA) as Hat.
  apply announceAndConnect_Ret_inv in EA as [Haa _].
  rewrite !advertised_app, !totp_values_app,
    (dial_only_advertised tb Hd), (dial_only_totp_values tb Hd), Hpa, Hpt, Haa, Hat.
  destruct (Rendezvous_cases d w3) as [[Hk ER1]|[(rv & Hrv & _ & ER1)|(_ & _ & ER1)]];
    rewrite ER1 in ER; [| |discriminate ER]; injection ER as <- _ <-; simpl.
  - exists (RendezvousString d). split; [reflexivity|]. now left.
  - exists rv. split; [reflexivity|]. now right.
Qed.

Lemma last_cons_default {A} : forall (l : list A) (a x : A),
  List.last (a :: l) x = List.last l a.
Proof.
  induction l as [|b l IH]; intros a x; [reflexivity|].
  change (List.last (a :: b :: l) x) with (List.last (b :: l) x).
  now rewrite !IH.
Qed.

Section Rotating.

(** The contract of the TOTP library: as many characters as digits. *)
Hypothesis totp_length : forall (w0 : W) key digits interval,
  (0 < digits)%Z ->
  String.length (totp_Now w0 key digits interval) = Z.to_nat digits.

Lemma rotating_value_nonempty d rv :
  (0 < KeyLength d)%Z -> rotating_value d rv -> rv <> EmptyString.
Proof.
  intros Hk [_ [w0 ->]] Habs.
  pose proof (totp_length w0 (OTPKey d) (KeyLength d) (OTPInterval d) Hk) as H.
  rewrite Habs in H. simpl in H. lia.
Qed.

Lemma refresh_loop_relay sch c k sels : forall n d (w : W) st d1 w1 t,
  OTPKey d <> EmptyString -> (0 < KeyLength d)%Z ->
  latestRendezvous d <> EmptyString ->
  refresh_loop sch n sels c k d w = Ret (st, d1) w1 t ->
  advertised t = relay (latestRendezvous d) (totp_values t) /\
  latestRendezvous d1 = List.last (totp_values t) (latestRendezvous d) /\
  timer_count t = S (length (totp_values t)).
Proof.
  induction sels as [|[|] sels IH]; intros n d w st d1 w1 t Hk Hl Hne E.
  - injection E as _ <- _ <-. now repeat split.
  - injection E as _ <- _ <-. now repeat split.
  - cbn [refresh_loop] in E.
    apply bind_Ret_inv in E as ([] & w2 & t0 & t2 & E0 & E & ->). injection E0 as _ <-.
    apply bind_Ret_inv in E as (d2 & w3 & tc & tl & EC & EL & ->).
    pose proof (connect_timer_count _ _ _ _ _ _ _ _ EC) as Htc.
    apply connect_Ret_inv in EC as (rv & Ha & [(Habs & _)|(Hrv & -> & Ht)]);
      [contradiction|].
    apply String.eqb_neq in Hne. rewrite Hne in Ha. apply String.eqb_neq in Hne.
    pose proof (rotating_value_nonempty d rv Hl Hrv) as Hrvne.
    destruct (IH (S n) (set_latestRendezvous rv d) w3 st d1 w1 tl Hk Hl Hrvne EL)
      as (IHa & IHl & IHt).
    simpl in IHa, IHl.
    change (advertised ([EvNewTimer (RefreshDiscoveryTime d)] ++ tc ++ tl))
      with (advertised (tc ++ tl)).
    change (totp_values ([EvNewTimer (RefreshDiscoveryTime d)] ++ tc ++ tl))
      with (totp_values (tc ++ tl)).
    rewrite advertised_app, totp_values_app, !timer_count_app, Ha, Ht, IHa, IHl, Htc, IHt.
    split; [reflexivity|]. split; [|reflexivity].
    simpl. symmetry. apply last_cons_default.
Qed.

(** X9.  A rotating session that starts without a previous value and
    with a non-negative [KeyLength], given a TOTP generator that gives as
    many characters as digits.  Over a lifetime that returns, what the
    session advertises is fixed by the values the generator gave: each
    value is advertised in the cycle that computed it and once more at the
    start of the next cycle, nothing else is advertised; the generator is
    called once per cycle, as often as timers are armed; and
    [latestRendezvous] ends as the last value generated. *)
Theorem rotating_values_relayed sch sels c d (w : W) st d1 w1 t :
  OTPKey d <> EmptyString -> latestRendezvous d = EmptyString ->
  (0 <= KeyLength d)%Z ->
  Run_session sch sels c d w = Ret (None, st, d1) w1 t ->
  advertised t = handover (totp_values t) /\
  latestRendezvous d1 = List.last (totp_values t) EmptyString /\
  timer_count t = length (totp_values t).
Proof.
  intros Hk Hl Hkl E. unfold Run_session in E.
  apply bind_Ret_inv in E as ([r d2] & w2 & t1 & t2 & ER & E & ->). simpl in E.
  destruct r as [e|k]; [discriminate E|].
  pose proof (Run_events c d w) as Hev. rewrite ER in Hev. simpl in Hev.
  destruct (startup_counts t1 Hev) as [Ha1 Ht1].
  pose proof (startup_totp_values t1 Hev) as Hv1.
  assert (Ha1' : advertised t1 = []).
  { unfold advertise_count in Ha1. now destruct (advertised t1). }
  destruct (Run_defaults_fields c d) as (Fk & Fl & _ & _).
  destruct (Run_defaults_config c d) as [_ FK].
  assert (Hd2 : OTPKey d2 <> EmptyString /\ latestRendezvous d2 = EmptyString /\
                (0 < KeyLength d2)%Z).
  { assert (HK : (0 < KeyLength (Run_defaults c d))%Z).
    { rewrite FK. destruct (Z.eqb_spec (KeyLength d) 0); lia. }
    apply Run_session_state in ER as [->|[kad ->]]; simpl; rewrite Fk, Fl; auto. }
  destruct Hd2 as (Hk2 & Hl2 & Hkl2).
  apply bind_Ret_inv in E as ([st1 d3] & w3 & tg & t3 & EG & E & ->).
  injection E as _ <- _ <-. rewrite app_nil_r. simpl. unfold refresh_goroutine in EG.
  apply bind_Ret_inv in EG as (d4 & w4 & tc & tl & EC & EL & ->).
  pose proof (connect_timer_count _ _ _ _ _ _ _ _ EC) as Htc.
  apply connect_Ret_inv in EC as (rv & Ha & [(Habs & _)|(Hrv & -> & Ht)]);
    [contradiction|].
  rewrite Hl2 in Ha. simpl in Ha.
  pose proof (rotating_value_nonempty d2 rv Hkl2 Hrv) as Hrvne.
  destruct (refresh_loop_relay sch c k sels 1 (set_latestRendezvous rv d2) w4 st1 d3 w3 tl
              Hk2 Hkl2 Hrvne EL) as (La & Ll & Lt).
  simpl in La, Ll.
  rewrite !advertised_app, !totp_values_app, !timer_count_app,
    Ha1', Hv1, Ht1, Ha, Ht, La, Ll, Htc, Lt.
  split; [reflexivity|]. split; [|reflexivity].
  simpl. symmetry. apply last_cons_default.
Qed.

End Rotating.

(** ** Creation is retried until it succeeds *)

Lemma repeat_created k n :
  length (repeat (Some k, @None error) n) = n /\
  Forall (fun r : option IpfsDHT * option error => fst r = None <-> snd r <> None)
         (repeat (Some k, None) n) /\
  List.filter failed (repeat (Some k, None) n) = [].
Proof.
  induction n as [|n (IH1 & IH2 & IH3)]; [now repeat split|].
  simpl. split; [now rewrite IH1|]. split; [|exact IH3].
  constructor; [|exact IH2]. simpl. split; [discriminate|]. intros H. now contradiction H.
Qed.

(** X10.  Requests for the handle that do not overlap.  Each returns
    either a handle and no error or an error and no handle.  A creation
    that fails is not remembered: the next request calls [dht.New] again,
    so the calls to [dht.New] are the requests that failed plus the one
    that succeeded, if any; and the [dht] field is nil at the end exactly
    when it was nil at the start and every request failed. *)
Theorem startDHT_retries_until_created n : forall d (w : W),
  exists rs d1 w1 t,
    startDHT_seq n d w = Ret (rs, d1) w1 t /\
    length rs = n /\
    Forall (fun r => fst r = None <-> snd r <> None) rs /\
    new_count t = length (List.filter failed rs) + created_count t /\
    (dht d1 = None <-> dht d = None /\ Forall (fun r => failed r = true) rs).
Proof.
  induction n as [|n IH]; intros d w.
  - exists [], d, w, []. simpl. repeat split; auto. now intros [H _].
  - destruct (dht d) as [k|] eqn:Hd.
    + destruct (repeat_created k (S n)) as (R1 & R2 & R3).
      exists (repeat (Some k, None) (S n)), d, w, [].
      split; [now apply startDHT_seq_Some|]. split; [exact R1|]. split; [exact R2|].
      split; [now rewrite R3|]. rewrite Hd. split; [discriminate|]. now intros [H _].
    + cbn [startDHT_seq]. pose proof (startDHT_None d w Hd) as ES.
      destruct (dht_New w (dhtOptions d)) as [[err|kad] w1] eqn:EN; simpl in ES;
        rewrite (bind_Ret _ _ _ _ _ _ ES); cbn [fst snd].
      * destruct (IH d w1) as (rs & d1 & w2 & t & E & Hlen & Hshape & Hcount & Hnil).
        rewrite (bind_Ret _ _ _ _ _ _ E). simpl.
        eexists _, _, _, _. split; [reflexivity|]. split; [simpl; now rewrite Hlen|].
        split; [|split].
        -- constructor; [|exact Hshape]. simpl. split; [discriminate|reflexivity].
        -- rewrite app_nil_r. unfold new_count, created_count in *. simpl.
           unfold failed at 1. simpl. rewrite Hcount. reflexivity.
        -- rewrite Hnil, Hd. split.
           ++ intros [_ HF]. split; [reflexivity|]. now constructor.
           ++ intros [_ HF]. split; [reflexivity|]. now inversion HF.
      * pose proof (startDHT_seq_Some n (set_dht (Some kad) d) kad w1 eq_refl) as E.
        destruct (repeat_created kad n) as (R1 & R2 & R3).
        rewrite (bind_Ret _ _ _ _ _ _ E). simpl.
        eexists _, _, _, _. split; [reflexivity|]. split; [simpl; now rewrite R1|].
        split; [|split].
        -- constructor; [|exact R2]. simpl. split; [discriminate|].
           intros H. now contradiction H.
        -- unfold new_count, created_count. simpl. now rewrite R3.
        -- split; [discriminate|]. intros [_ HF]. now inversion HF.
Qed.

(** ** Timers *)

Lemma session_step_refresh d d1 :
  session_step d d1 -> RefreshDiscoveryTime d1 = RefreshDiscoveryTime d.
Proof. now intros [->|(rv & _ & ->)]. Qed.

Lemma cycle_ev_timer_ev d dur e : cycle_ev d e -> timer_ev dur e.
Proof. now destruct e. Qed.

Lemma refresh_loop_timers sch c k sels : forall n d (w : W),
  Forall (timer_ev (RefreshDiscoveryTime d)) (trace_of (refresh_loop sch n sels c k d w)).
Proof.
  induction sels as [|[|] sels IH]; intros n d w; try (repeat constructor).
  cbn [refresh_loop]. apply Forall_trace_bind; [repeat constructor|].
  intros _ w1 _ _. apply Forall_trace_bind.
  - eapply List.Forall_impl; [|apply connect_events]. apply cycle_ev_timer_ev.
  - intros d1 w2 t2 E. apply connect_session in E. apply session_step_refresh in E.
    rewrite <- E. apply IH.
Qed.

Lemma refresh_loop_head sch c k sels n d (w : W) st d1 w1 t :
  refresh_loop sch n sels c k d w = Ret (st, d1) w1 t ->
  exists rest, t = EvNewTimer (RefreshDiscoveryTime d) :: rest.
Proof.
  intros E. destruct sels as [|s sels]; cbn [refresh_loop] in E;
    apply bind_Ret_inv in E as ([] & w2 & t0 & t2 & E0 & _ & ->);
    injection E0 as _ <-; now exists t2.
Qed.

(** X11.  A session whose goroutine was spawned and whose run returns.
    Every timer of its lifetime is armed for the configured
    [RefreshDiscoveryTime]; and the first cycle runs at once: before the
    first timer is armed, a whole cycle, with its announce pass, has
    already run. *)
Theorem first_cycle_before_first_timer sch sels c d (w : W) st d1 w1 t :
  Run_session sch sels c d w = Ret (None, st, d1) w1 t ->
  Forall (timer_ev (RefreshDiscoveryTime d)) t /\
  exists t0 rest,
    t = t0 ++ EvNewTimer (RefreshDiscoveryTime d) :: rest /\
    timer_count t0 = 0 /\ 1 <= advertise_count t0.
Proof.
  unfold Run_session. intros E.
  apply bind_Ret_inv in E as ([r d2] & w2 & t1 & t2 & ER & E & ->). simpl in E.
  destruct r as [e|k]; [discriminate E|].
  pose proof (Run_events c d w) as Hev. rewrite ER in Hev. simpl in Hev.
  destruct (startup_counts t1 Hev) as [Ha1 Ht1].
  assert (Hr2 : RefreshDiscoveryTime d2 = RefreshDiscoveryTime d).
  { destruct (Run_defaults_config c d) as [(_ & _ & _ & Hr & _) _].
    apply Run_session_state in ER as [->|[kad ->]]; exact Hr. }
  apply bind_Ret_inv in E as ([st1 d3] & w3 & tg & t3 & EG & E & ->).
  injection E as _ _ _ <-. rewrite app_nil_r. unfold refresh_goroutine in EG.
  apply bind_Ret_inv in EG as (d4 & w4 & tc & tl & EC & EL & ->).
  pose proof (connect_timer_count _ _ _ _ _ _ _ _ EC) as Htc.
  pose proof (connect_events (sch 0) c k d2 w2) as Hce. rewrite EC in Hce. simpl in Hce.
  pose proof (session_step_refresh _ _
                (connect_session _ _ _ _ _ _ _ _ (or_introl EC))) as Hr4.
  pose proof (refresh_loop_timers sch c k sels 1 d4 w4) as Hlt.
  rewrite EL in Hlt. simpl in Hlt. rewrite Hr4, Hr2 in Hlt.
  apply refresh_loop_head in EL as [rest ->]. rewrite Hr4, Hr2.
  apply connect_Ret_inv in EC as (rv & Ha & _).
  split.
  - apply Forall_app. split.
    + eapply List.Forall_impl; [|exact Hev]. intros e He. now destruct e.
    + apply Forall_app. split; [|now rewrite Hr4, Hr2 in Hlt].
      eapply List.Forall_impl; [|exact Hce]. apply cycle_ev_timer_ev.
  - exists (t1 ++ tc), rest. split; [now rewrite <- app_assoc|].
    rewrite timer_count_app, advertise_count_app, Ht1, Htc, Ha1.
    split; [reflexivity|]. unfold advertise_count. rewrite Ha, length_app. simpl. lia.
Qed.

End WithWorld.
End Props.

(** * The properties at concrete inputs *)

Module Examples.
Import Discovery Trace Pred TestWorld Props.

Local Open Scope string_scope.

Lemma zero_padded_length n : forall code, String.length (zero_padded n code) = n.
Proof.
  induction n as [|n IH]; intros code; [reflexivity|]. simpl.
  assert (Happ : forall s1 s2, String.length (s1 ++ s2) = String.length s1 + String.length s2).
  { induction s1 as [|a s1 IH1]; intros s2; simpl; [reflexivity|]. now rewrite IH1. }
  rewrite Happ, IH. simpl. lia.
Qed.

Lemma test_totp_length (w : world) key digits interval :
  (0 < digits)%Z ->
  String.length (totp_Now w key digits interval) = Z.to_nat digits.
Proof. intros _. apply zero_padded_length. Qed.

(** The lookup fails to start: the pass returns that error. *)
Example announce_lookup_fails :
  exists t, announceAndConnect sess0 0 "rv" w_find_fails
            = Ret (Some "routing unavailable") w_find_fails t.
Proof. eexists. reflexivity. Qed.

(** QmB cannot be dialled: the pass still returns nil and goes on to the
    peer after it. *)
Example announce_dial_fails :
  exists w1 t,
    announceAndConnect sess0 0 "rv" w0 = Ret None w1 t /\
    In (EvConnect peerB (Some "dial failed")) t /\
    checked_ids t = ["QmA"; "QmB"; "QmA"].
Proof.
  eexists _, _. split; [reflexivity|]. split; [|reflexivity].
  simpl. tauto.
Qed.

Lemma announceAndConnect_error_iff_witness :
  console sess0 = Some 0 /\
  exists r w1 t,
    announceAndConnect sess0 0 "rv" w0 = Ret r w1 t /\
    (forall e, r = Some e <-> fst (FindPeers (Advertise w0 0 "rv") 0 "rv") = inl e) /\
    (forall p e, In (EvConnect p (Some e)) t -> r = None) /\
    (forall peers, fst (FindPeers (Advertise w0 0 "rv") 0 "rv") = inr peers ->
       r = None /\ checked_ids t = map ID (List.filter eligible peers)).
Proof.
  split; [reflexivity|].
  apply (announceAndConnect_error_iff sess0 0 0 "rv" w0). reflexivity.
Defined.

Lemma announce_skips_self_and_addressless_witness :
  (ID peerSelf = host_ID \/ Addrs peerSelf = []) /\
  (forall rest (w : world),
     range_peerChan sess0 (peerSelf :: rest) w = range_peerChan sess0 rest w) /\
  (forall k rv (w : world) r,
     ~ In (EvConnect peerSelf r) (trace_of (announceAndConnect sess0 k rv w))).
Proof.
  split; [left; reflexivity|].
  apply (announce_skips_self_and_addressless sess0 peerSelf). left. reflexivity.
Defined.

Lemma no_dial_of_connected_peer_witness :
  Connectedness wA (ID peerA) = Connected /\
  goroutine_step (Some 0) (GCheck (Some peerA)) wA =
  Ret GDone wA [EvConnectedness (ID peerA) Connected] /\
  announce_peer sess0 peerA wA =
  Ret tt wA [EvConnectedness (ID peerA) Connected; EvLog 0 LvlDebug (MsgKnownPeer peerA)].
Proof.
  split; [reflexivity|].
  destruct (@no_dial_of_connected_peer world _ _) as (_ & _ & Hgo & Hann). split.
  - apply (Hgo (Some 0) peerA wA). reflexivity.
  - apply (Hann sess0 0 peerA wA); reflexivity.
Defined.

(** The failing input of C3: the goroutine of the second entry panics.
    When the runtime takes two more calls to exit, the process is gone
    before the goroutine of the first entry has logged its dial.  When it
    takes four, [wg.Wait()] is released by the deferred [wg.Done()], the
    pass comes back, and the cycle goes on into its announce pass, where
    the process exits. *)
Example bootstrapPeers_addrNoID :
  AddrInfoFromP2pAddr addrNoID = None /\
  bootstrapPeers [1] (Some 0) sessBad (with_delay 2 w0) =
  Panic [EvConnectedness "QmA" NotConnected; EvConnect peerA None] /\
  (exists w1,
     bootstrapPeers [1] (Some 0) sessBad w0 =
     Dying tt w1 [EvConnectedness "QmA" NotConnected; EvConnect peerA None;
                  EvLog 0 LvlDebug (MsgBootstrapConnected peerA)] 1) /\
  connect [1] (Some 0) 0 sessBad w0 =
  Panic [EvConnectedness "QmA" NotConnected; EvConnect peerA None;
         EvLog 0 LvlDebug (MsgBootstrapConnected peerA);
         EvLog 0 LvlDebug MsgAnnouncing].
Proof. repeat split. eexists. reflexivity. Qed.

Lemma bootstrapPeers_unparsable_entry_panics_witness :
  In addrNoID (BootstrapPeers sessBad) /\
  AddrInfoFromP2pAddr addrNoID = None /\
  panicked (bootstrapPeers [1; 0] (Some 0) sessBad w0) = true.
Proof.
  assert (Hin : In addrNoID (BootstrapPeers sessBad)) by (simpl; tauto).
  split; [exact Hin|]. split; [reflexivity|].
  apply (bootstrapPeers_unparsable_entry_panics [1; 0] (Some 0) sessBad w0 addrNoID Hin).
  reflexivity.
Defined.

(** C2, as it was stated, fails here: the routing handle is created, and
    [Run] still returns an error, the one [Bootstrap] gave. *)
Lemma Run_returns_bootstrap_error :
  (exists d1 w1 t,
     startDHT (Run_defaults (Some 0) sess0) w_boot_fails
     = Ret (Some 0, None, d1) w1 t) /\
  (exists d1 w1 t,
     Run (Some 0) sess0 w_boot_fails = Ret (RunError "bootstrap failed", d1) w1 t).
Proof. split; eexists _, _, _; reflexivity. Qed.

Lemma connect_cycle_order_witness :
  console sessRot = Some 0 /\
  exists w1 tb r0 w2 tp rv d1 tr r w3 tc,
    bootstrapPeers [] (Some 0) sessRot w0 = Ret tt w1 tb /\
    announceAndConnect sessRot 0 "000003503466" w1 = Ret r0 w2 tp /\
    Rendezvous sessRot w2 = Ret (rv, d1) w2 tr /\
    announceAndConnect d1 0 rv w2 = Ret r w3 tc /\
    connect [] (Some 0) 0 sessRot w0 = Ret d1 w3 (tb ++ tp ++ tr ++ tc)%list /\
    advertised tb = [] /\
    advertised (tp ++ tr ++ tc)%list = ["000003503466"; rv].
Proof.
  split; [reflexivity|].
  destruct (connect_cycle_order [] (Some 0) 0 sessRot 0 w0 eq_refl)
    as (Hsteps & Hb & Hret & _).
  destruct (bootstrapPeers [] (Some 0) sessRot w0) as [[] w1 tb|tb|[] w1 tb n] eqn:E;
    [|discriminate E|discriminate E].
  destruct (Hsteps w1) as (w2 & tp & [r0 Hp] & [(_ & Hpan & _)|Hcur]);
    [discriminate Hpan|].
  destruct Hcur as (rv & d1 & tr & r & w3 & tc & HR & HA & HS & Hadv).
  destruct (Hret w1 tb eq_refl) as [Hc _].
  exists w1, tb, r0, w2, tp, rv, d1, tr, r, w3, tc.
  repeat split; try assumption. exact (Hc d1 w3 _ HS).
Defined.

(** The same session with [OTPInterval] zero: the pass under the previous
    value runs, then the TOTP generator panics and the cycle ends there,
    with no pass under a current value. *)
Example connect_generator_panics :
  exists tb tp,
    trace_of (bootstrapPeers [] (Some 0) sessNoInterval w0) = tb /\
    connect [] (Some 0) 0 sessNoInterval w0 = Panic (tb ++ tp)%list /\
    advertised tp = ["000003503466"] /\ totp_values tp = [].
Proof. eexists _, _. split; [reflexivity|]. split; [reflexivity|]. split; reflexivity. Qed.

(** C5, as it was stated, fails here: two requests that both read the nil
    field before either stores its instance create two instances, get
    different handles, and the second store replaces the first. *)
Lemma startDHT_overlapping_creates_twice :
  exists d1 w1 t,
    startDHT_interleave [0; 1; 0; 0; 0; 1; 1; 1] [PcCheck; PcCheck] sess0 w0
    = Ret ([PcDone (Some 0) None; PcDone (Some 1) None], d1) w1 t /\
    created_count t = 2 /\ dht d1 = Some 1.
Proof. eexists _, _, _. repeat split. Qed.

Lemma startDHT_sequential_once_witness :
  dht sess7 = Some 7 /\
  exists rs d1 w1 t,
    startDHT_seq 3 sess7 w0 = Ret (rs, d1) w1 t /\
    d1 = sess7 /\ t = [] /\ rs = repeat (Some 7, None) 3.
Proof.
  split; [reflexivity|].
  destruct (startDHT_sequential_once 3 sess7 w0) as (rs & d1 & w1 & t & E & _ & H & _).
  destruct (H 7 eq_refl) as (Hd & _ & Ht & Hrs).
  exists rs, d1, w1, t. auto.
Defined.

(** Three requests on a fresh session: one instance, one handle. *)
Example startDHT_seq_fresh :
  exists d1 w1 t,
    startDHT_seq 3 sess0 w0 = Ret (repeat (Some 0, None) 3, d1) w1 t /\
    created_count t = 1 /\ created w1 = 1.
Proof. eexists _, _, _. repeat split. Qed.

Lemma refresh_loop_cancelled_while_waiting_witness :
  exists d1 w1 t,
    refresh_loop (fun _ => []) 1 ([TimerC] ++ CtxDone :: [TimerC; TimerC])%list (Some 0) 0 sess0 w0
    = Ret (Stopped, d1) w1 t /\
    exists t0, t = (t0 ++ [EvNewTimer (RefreshDiscoveryTime d1); EvTimerStop])%list.
Proof.
  destruct (@refresh_loop_cancelled_while_waiting world _ _ (fun _ => []) (Some 0) 0)
    as (_ & _ & H).
  destruct (refresh_loop (fun _ => []) 1 ([TimerC] ++ CtxDone :: [TimerC; TimerC])%list
              (Some 0) 0 sess0 w0) as [[st d1] w1 t|t|[st d1] w1 t m] eqn:E;
    [|discriminate E|discriminate E].
  destruct (H [TimerC] 1 [TimerC; TimerC] sess0 w0 st d1 w1 t E) as [-> Ht].
  exists d1, w1, t. split; [reflexivity|exact Ht].
Defined.

Lemma KeyLength_defaults_to_12_witness :
  KeyLength sessOTP = 0%Z /\
  KeyLength (Run_defaults (Some 0) sessOTP) = 12%Z /\
  Forall totp_digits_12
    (trace_of (Run_session (fun _ => []) [TimerC; TimerC] (Some 0) sessOTP w0)) /\
  Forall advertise_12
    (trace_of (Run_session (fun _ => []) [TimerC; TimerC] (Some 0) sessOTP w0)).
Proof.
  split; [reflexivity|].
  destruct (KeyLength_defaults_to_12 (fun _ => []) [TimerC; TimerC] (Some 0) sessOTP w0
              test_totp_length eq_refl) as (H1 & H2 & _ & H4).
  split; [exact H1|]. split; [exact H2|]. apply H4; [discriminate|reflexivity].
Defined.

(** The identifiers the rotating session advertises in this world. *)
Example rotating_session_advertised :
  advertised (trace_of (Run_session (fun _ => []) [TimerC] (Some 0) sessOTP w0))
  = ["000003582761"; "000003582761"; "000003582761"].
Proof. reflexivity. Qed.

Lemma static_mode_single_pass_witness :
  OTPKey sess0 = "" /\ latestRendezvous sess0 = "" /\
  Forall (static_ev "edgevpn")
    (trace_of (Run_session (fun _ => []) [TimerC; CtxDone] (Some 0) sess0 w0)) /\
  (forall err st d1 w1 t,
     Run_session (fun _ => []) [TimerC; CtxDone] (Some 0) sess0 w0 = Ret (err, st, d1) w1 t ->
     latestRendezvous d1 = "" /\ OTPKey d1 = "" /\
     (err = None -> advertise_count t = timer_count t)).
Proof.
  split; [reflexivity|]. split; [reflexivity|].
  destruct (static_mode_single_pass (fun _ => []) [TimerC; CtxDone] (Some 0) sess0 w0
              eq_refl eq_refl) as (_ & H2 & H3).
  split; [exact H2 | exact H3].
Defined.

(** Two cycles of the static session: two announce passes, two timers. *)
Example static_session_counts :
  let t := trace_of (Run_session (fun _ => []) [TimerC; CtxDone] (Some 0) sess0 w0) in
  advertised t = ["edgevpn"; "edgevpn"] /\ timer_count t = 2.
Proof. split; reflexivity. Qed.

(** Every entry parses: the pass returns. *)
Example bootstrapPeers_all_parse :
  exists w1 t,
    bootstrapPeers [1; 0; 1] (Some 0) sess0 w0 = Ret tt w1 t /\
    checked_ids t = ["QmB"; "QmA"] /\ dials "QmA" t = 1 /\ dials "QmB" t = 1.
Proof. eexists _, _. repeat split. Qed.

Lemma bootstrapPeers_each_entry_once_witness :
  exists w1 t n,
    bootstrapPeers [1] (Some 0) sessBad w0 = Dying tt w1 t n /\
    length (checked_ids t) = length (List.filter parsable (BootstrapPeers sessBad)) /\
    forall id,
      checks id t = length (List.filter (parses_to id) (BootstrapPeers sessBad)) /\
      dials id t = clearances id t.
Proof.
  eexists _, _, _. split; [reflexivity|].
  eapply (bootstrapPeers_each_entry_once [1] (Some 0) sessBad w0).
  right. eexists. reflexivity.
Defined.

Lemma announceAndConnect_dials_exactly_witness :
  exists r w1 t,
    announceAndConnect sess0 0 "rv" w0 = Ret r w1 t /\
    (forall id, dials id t = clearances id t) /\
    (r <> None -> checked_ids t = [] /\ forall id, dials id t = 0).
Proof.
  eexists _, _, _. split; [reflexivity|].
  eapply (announceAndConnect_dials_exactly sess0 0 "rv" w0). reflexivity.
Defined.

Lemma all_parse_sessOTP : all_parse (BootstrapPeers sessOTP).
Proof. intros a [<-|[]]; discriminate. Qed.

Lemma Run_session_keeps_running_witness :
  all_parse (BootstrapPeers sessOTP) /\
  (forall w : world, totp_panics w (OTPKey sessOTP) 12 (OTPInterval sessOTP) = false) /\
  exists err st d1 w1 t,
    Run_session (fun _ => [1; 0]) [TimerC; TimerC; CtxDone; TimerC] (Some 0) sessOTP
                w_find_fails = Ret (err, st, d1) w1 t /\
    (err <> None -> st = None) /\
    (err = None ->
     st = Some (if cancelled [TimerC; TimerC; CtxDone; TimerC] then Stopped else Waiting) /\
     timer_count t = S (leading_timers [TimerC; TimerC; CtxDone; TimerC])).
Proof.
  split; [exact all_parse_sessOTP|]. split; [reflexivity|].
  apply (Run_session_keeps_running (fun _ => [1; 0]) [TimerC; TimerC; CtxDone; TimerC]
           0 sessOTP w_find_fails all_parse_sessOTP).
  right. reflexivity.
Defined.

(** What the hypothesis on the generator is for: with [OTPInterval] left
    at zero, the first cycle of the session panics in [Rendezvous], before
    anything is advertised. *)
Example Run_session_generator_panics :
  exists t,
    Run_session (fun _ => []) [TimerC] (Some 0) (set_latestRendezvous "" sessNoInterval) w0
    = Panic t /\
    advertised t = [] /\ timer_count t = 0.
Proof. eexists. repeat split. Qed.

Lemma session_configuration_kept_witness :
  exists err st d1 w1 t,
    Run_session (fun _ => []) [TimerC] (Some 0) sessOTP w0 = Ret (err, st, d1) w1 t /\
    same_config sessOTP d1 /\ console d1 = Some 0 /\
    KeyLength d1 = 12%Z /\ BootstrapPeers d1 = BootstrapPeers sessOTP.
Proof.
  eexists _, _, _, _, _. split; [reflexivity|].
  eapply (session_configuration_kept (fun _ => []) [TimerC] (Some 0) sessOTP w0).
  reflexivity.
Defined.

Lemma failed_startup_does_nothing_else_witness :
  exists e st d1 w1 t,
    Run_session (fun _ => []) [TimerC] (Some 0) sess0 w_boot_fails
    = Ret (Some e, st, d1) w1 t /\
    st = None /\ Forall startup_ev t /\
    checked_ids t = [] /\ advertise_count t = 0 /\ timer_count t = 0 /\
    forall id, dials id t = 0.
Proof.
  eexists _, _, _, _, _. split; [reflexivity|].
  eapply (failed_startup_does_nothing_else (fun _ => []) [TimerC] (Some 0) sess0 w_boot_fails).
  reflexivity.
Defined.

Lemma one_handle_for_all_witness :
  dht sess7 = Some 7 /\
  exists err st d1 w1 t,
    Run_session (fun _ => []) [TimerC] (Some 0) sess7 w0 = Ret (err, st, d1) w1 t /\
    Forall (handle_ev (Some 7) (dhtOptions sess7)) t /\
    new_count t = 0 /\ dht d1 = Some 7.
Proof.
  split; [reflexivity|].
  eexists _, _, _, _, _. split; [reflexivity|].
  edestruct (one_handle_for_all (fun _ => []) [TimerC] (Some 0) sess7 w0)
    as (HF & _ & H0); [reflexivity|].
  destruct (H0 7 eq_refl) as [Hn Hd]. split; [exact HF|]. split; [exact Hn|exact Hd].
Defined.

Lemma rotating_values_relayed_witness :
  OTPKey sessOTP <> "" /\ latestRendezvous sessOTP = "" /\ (0 <= KeyLength sessOTP)%Z /\
  exists st d1 w1 t,
    Run_session (fun _ => []) [TimerC; TimerC] (Some 0) sessOTP w0
    = Ret (None, st, d1) w1 t /\
    advertised t = handover (totp_values t) /\
    latestRendezvous d1 = List.last (totp_values t) "" /\
    timer_count t = length (totp_values t).
Proof.
  split; [discriminate|]. split; [reflexivity|]. split; [discriminate|].
  eexists _, _, _, _. split; [reflexivity|].
  eapply (rotating_values_relayed test_totp_length (fun _ => []) [TimerC; TimerC] (Some 0)
           sessOTP w0); [discriminate|reflexivity|discriminate|reflexivity].
Defined.

Lemma first_cycle_before_first_timer_witness :
  exists st d1 w1 t,
    Run_session (fun _ => []) [TimerC; CtxDone] (Some 0) sess0 w0
    = Ret (None, st, d1) w1 t /\
    Forall (timer_ev (RefreshDiscoveryTime sess0)) t /\
    exists t0 rest,
      t = (t0 ++ EvNewTimer (RefreshDiscoveryTime sess0) :: rest)%list /\
      timer_count t0 = 0 /\ 1 <= advertise_count t0.
Proof.
  eexists _, _, _, _. split; [reflexivity|].
  eapply (first_cycle_before_first_timer (fun _ => []) [TimerC; CtxDone] (Some 0) sess0 w0).
  reflexivity.
Defined.

End Examples.
